(** * CurricuLab AI: LLM invocation and structured-output recovery

    A shallow embedding of
      - [src/src/llm/client.py]  (class [GeminiClient]: [__init__], [generate],
        [generate_with_retry]),
      - [src/Home.py]            (the career-path tab, lines 362-400, and the
        recommender tab, lines 453-486: from the form fields to the prompt,
        and from the client to the parsed reply),
      - [src/check_quota.py]     ([check_quota] and the exit status of the
        script),
      - [src/src/llm/career_prompts.py]  ([get_career_path_prompt],
        [get_course_recommendation_prompt]),
    together with the properties of the specification that concern them and
    further properties of the code.

    Python values are modelled as follows.  A [str] is a list of characters,
    a character being a code point below 256 (Rocq's [ascii]); integers are
    [Z]; [None] is [option]'s [None]; exceptions are the constructors of
    [exn] and are threaded through an exception-and-state monad whose state
    records the calls made to the hosted endpoint, the sleeps and the
    diagnostics printed. *)

From Stdlib Require Import ZArith QArith Ascii String DecimalString List Lia Bool.
From stdpp Require Import base option list strings gmap.

Local Open Scope Z_scope.

#[local] Set Warnings "-register-all".

(** ** Python string primitives *)

Module PyStr.

Abbreviation str := (list ascii) (only parsing).

(** A literal of the source. *)
Definition lit (s : string) : str := list_ascii_of_string s.

Definition chr (n : nat) : ascii := ascii_of_nat n.
Definition ord (c : ascii) : nat := nat_of_ascii c.

(** The double quote. *)
Definition dquote : ascii := Eval cbv in chr 34.

Definition len (s : str) : Z := Z.of_nat (length s).

(** [s.startswith(p)] *)
Fixpoint startswith (p s : str) : bool :=
  match p, s with
  | [], _ => true
  | _ :: _, [] => false
  | a :: p', b :: s' => Ascii.eqb a b && startswith p' s'
  end.

(** Lowest index at which [sub] occurs in [s], if any. *)
Fixpoint index_of (sub s : str) : option nat :=
  if startswith sub s then Some 0%nat
  else match s with
       | [] => None
       | _ :: s' => S <$> index_of sub s'
       end.

(** Highest index at which [sub] occurs in [s], if any. *)
Fixpoint rindex_of (sub s : str) : option nat :=
  match s with
  | [] => if startswith sub [] then Some 0%nat else None
  | _ :: s' =>
      match rindex_of sub s' with
      | Some i => Some (S i)
      | None => if startswith sub s then Some 0%nat else None
      end
  end.

(** [sub in s] *)
Definition contains (sub s : str) : bool := bool_decide (is_Some (index_of sub s)).

(** [s.find(sub)]: the lowest index, or -1. *)
Definition find (sub s : str) : Z :=
  match index_of sub s with Some i => Z.of_nat i | None => -1 end.

(** [s.rfind(sub)]: the highest index, or -1. *)
Definition rfind (sub s : str) : Z :=
  match rindex_of sub s with Some i => Z.of_nat i | None => -1 end.

(** Index normalisation of a slice bound: a negative bound counts from the
    end, and the result is clamped to [0 .. len]. *)
Definition clamp (n i : Z) : Z :=
  if i <? 0 then Z.max 0 (i + n) else Z.min i n.

(** [s[start:stop]] *)
Definition slice (s : str) (start stop : Z) : str :=
  let a := clamp (len s) start in
  let b := clamp (len s) stop in
  take (Z.to_nat (b - a)) (drop (Z.to_nat a) s).

(** [str.isspace] on one character: the ASCII white space 0x09-0x0D,
    0x1C-0x1F and 0x20, and in the Latin-1 range 0x85 and 0xA0. *)
Definition isspace (c : ascii) : bool :=
  let n := ord c in
  ((9 <=? n) && (n <=? 13) || (28 <=? n) && (n <=? 32)
   || (n =? 133) || (n =? 160))%nat.

Fixpoint lstrip (s : str) : str :=
  match s with
  | [] => []
  | c :: s' => if isspace c then lstrip s' else s
  end.

Definition rstrip (s : str) : str := rev (lstrip (rev s)).

(** [s.strip()] *)
Definition strip (s : str) : str := lstrip (rstrip s).

(** [s.split(sep)] for a non-empty [sep]: cut at the lowest occurrence and
    go on behind it.  Every cut removes at least one character, so
    [length s] rounds are enough ([split_rounds_enough]).  (Python raises
    [ValueError] on an empty separator; the source only splits at
    literals.) *)
Fixpoint split_rounds (rounds : nat) (sep s : str) : list str :=
  match rounds with
  | O => [s]
  | S r =>
      match index_of sep s with
      | None => [s]
      | Some i => take i s :: split_rounds r sep (drop (i + length sep) s)
      end
  end.

Definition split (sep s : str) : list str := split_rounds (length s) sep s.

(** [s.lower()] on code points below 256: A-Z, and the Latin-1 capitals
    0xC0-0xDE except the multiplication sign 0xD7. *)
Definition lower_char (c : ascii) : ascii :=
  let n := ord c in
  if ((65 <=? n) && (n <=? 90)
      || (192 <=? n) && (n <=? 222) && negb (n =? 215))%nat
  then chr (n + 32) else c.

Definition lower (s : str) : str := map lower_char s.

(** [str(n)] for an integer. *)
Definition str_of_Z (n : Z) : str :=
  lit (NilZero.string_of_int (Z.to_int n)).

End PyStr.

Import PyStr.

(** ** The JSON decoder

    [json.loads] is the standard library's, not the repository's.  It is
    modelled after CPython's [Lib/json/decoder.py] and [Lib/json/scanner.py]
    (the pure-Python decoder, default options: [strict=True], no hooks): the
    same functions, the same order of tests, the same messages and
    positions.  A decoded [float] is kept as the text it was read from. *)

Module Json.

(** A decoded Python [str]: code points, as [\uXXXX] escapes reach beyond
    the characters of the input. *)
Definition ustr := list N.

Definition ulit (s : string) : ustr := map N_of_ascii (lit s).

Inductive value :=
| Null
| Bool (b : bool)
| Int (n : Z)
| Float (text : str)
| Str (s : ustr)
| List (l : list value)
| Dict (d : list (ustr * value)).

(** The messages of [JSONDecodeError]. *)
Inductive reason :=
| ExpectingValue
| ExtraData
| ExpectingPropertyName
| ExpectingColon
| ExpectingComma
| UnterminatedString
| InvalidControlCharacter (c : ascii)
| InvalidEscape (c : ascii)
| InvalidUnicodeEscape.

(** What a scanning function hands back: a value and the index behind it,
    [StopIteration(idx)], a [JSONDecodeError], or not enough rounds. *)
Inductive scan (A : Type) :=
| Done (a : A) (stop : nat)
| Stop (idx : nat)
| Fail (msg : reason) (pos : nat)
| Exhausted.
Arguments Done {A} a stop.
Arguments Stop {A} idx.
Arguments Fail {A} msg pos.
Arguments Exhausted {A}.

(** [WHITESPACE_STR = ' \t\n\r'] *)
Definition is_ws (c : ascii) : bool :=
  let n := ord c in ((n =? 32) || (n =? 9) || (n =? 10) || (n =? 13))%nat.

Fixpoint count_ws (t : str) : nat :=
  match t with
  | c :: t' => if is_ws c then S (count_ws t') else O
  | [] => O
  end.

(** [WHITESPACE.match(s, i).end()] *)
Definition ws_end (s : str) (i : nat) : nat :=
  (Nat.min i (length s) + count_ws (drop i s))%nat.

(** [s[i:i+1] in WHITESPACE_STR]; the empty string at the end of [s] is in
    it. *)
Definition ws_or_end (s : str) (i : nat) : bool :=
  match s !! i with Some c => is_ws c | None => true end.

(** [s[i:i+1] == c] *)
Definition char_is (s : str) (i : nat) (c : ascii) : bool :=
  match s !! i with Some c' => Ascii.eqb c' c | None => false end.

(** [s[i:i+len(w)] == w] *)
Definition word_at (s : str) (i : nat) (w : string) : bool :=
  startswith (lit w) (drop i s).

(** *** Numbers: [NUMBER_RE] *)

Definition is_digit (c : ascii) : bool :=
  let n := ord c in ((48 <=? n) && (n <=? 57))%nat.

Fixpoint digits (t : str) : str :=
  match t with
  | c :: t' => if is_digit c then c :: digits t' else []
  | [] => []
  end.

Definition int_of_digits (ds : str) : Z :=
  fold_left (fun acc c => 10 * acc + Z.of_nat (ord c - 48)) ds 0.

(** The integer group of [NUMBER_RE] at the head of [t]: an optional minus
    sign, then either a single 0 or a digit 1-9 followed by any digits. *)
Definition match_integer (t : str) : option str :=
  let (sign, u) :=
    match t with
    | c :: t' => if Ascii.eqb c "-" then ([c], t') else ([], t)
    | [] => ([], t)
    end in
  match u with
  | c :: u' =>
      if Ascii.eqb c "0" then Some (sign ++ [c])
      else if is_digit c then Some (sign ++ c :: digits u')
      else None
  | [] => None
  end.

(** The optional fraction group: a dot and at least one digit. *)
Definition match_frac (t : str) : str :=
  match t with
  | c :: t' =>
      if Ascii.eqb c "." then
        match digits t' with [] => [] | ds => c :: ds end
      else []
  | [] => []
  end.

(** The optional exponent group: e or E, an optional sign, and at least one
    digit. *)
Definition match_exp (t : str) : str :=
  match t with
  | c :: t' =>
      if Ascii.eqb c "e" || Ascii.eqb c "E" then
        let (sign, u) :=
          match t' with
          | d :: t'' =>
              if Ascii.eqb d "-" || Ascii.eqb d "+" then ([d], t'') else ([], t')
          | [] => ([], t')
          end in
        match digits u with [] => [] | ds => c :: sign ++ ds end
      else []
  | [] => []
  end.

(** [int(integer)] *)
Definition parse_int (integer : str) : Z :=
  match integer with
  | c :: ds => if Ascii.eqb c "-" then - int_of_digits ds else int_of_digits integer
  | [] => 0
  end.

(** [match_number(string, idx)] and what [_scan_once] makes of its groups. *)
Definition scan_number (s : str) (idx : nat) : option (value * nat) :=
  let t := drop idx s in
  match match_integer t with
  | None => None
  | Some integer =>
      let frac := match_frac (drop (length integer) t) in
      let exp := match_exp (drop (length integer + length frac) t) in
      let stop := (idx + length integer + length frac + length exp)%nat in
      match frac, exp with
      | [], [] => Some (Int (parse_int integer), stop)
      | _, _ => Some (Float (integer ++ frac ++ exp), stop)
      end
  end.

(** *** Strings: [py_scanstring] *)

(** The table [BACKSLASH]. *)
Definition BACKSLASH (esc : ascii) : option N :=
  if Ascii.eqb esc dquote then Some 34%N
  else if Ascii.eqb esc "\" then Some 92%N
  else if Ascii.eqb esc "/" then Some 47%N
  else if Ascii.eqb esc "b" then Some 8%N
  else if Ascii.eqb esc "f" then Some 12%N
  else if Ascii.eqb esc "n" then Some 10%N
  else if Ascii.eqb esc "r" then Some 13%N
  else if Ascii.eqb esc "t" then Some 9%N
  else None.

Definition hex_digit (c : ascii) : option N :=
  let n := ord c in
  if ((48 <=? n) && (n <=? 57))%nat then Some (N.of_nat (n - 48))
  else if ((65 <=? n) && (n <=? 70))%nat then Some (N.of_nat (n - 55))
  else if ((97 <=? n) && (n <=? 102))%nat then Some (N.of_nat (n - 87))
  else None.

(** [_decode_uXXXX]: four hexadecimal digits, read in base 16. *)
Definition decode_uXXXX (t : str) : option N :=
  match t with
  | a :: b :: c :: d :: _ =>
      a' ← hex_digit a; b' ← hex_digit b; c' ← hex_digit c; d' ← hex_digit d;
      Some (((a' * 16 + b') * 16 + c') * 16 + d')%N
  | _ => None
  end.

(** The loop of [py_scanstring]; [t] is [s] from index [stop] on, [chunks]
    the characters decoded so far, last one first, and [begin] the index of
    the opening quote. *)
Fixpoint scanstring_loop (begin : nat) (chunks : ustr) (t : str) (stop : nat)
  : scan ustr :=
  match t with
  | [] => Fail UnterminatedString begin
  | c :: t1 =>
      if Ascii.eqb c dquote then Done (rev chunks) (stop + 1)
      else if Ascii.eqb c "\" then
        match t1 with
        | [] => Fail UnterminatedString begin
        | esc :: t2 =>
            if Ascii.eqb esc "u" then
              match t2 with
              | _ :: _ :: _ :: _ :: t3 =>
                  match decode_uXXXX t2 with
                  | None => Fail InvalidUnicodeEscape (stop + 1)
                  | Some uni =>
                      if ((55296 <=? uni) && (uni <=? 56319))%N
                         && startswith (lit "\u") t3 then
                        match t3 with
                        | _ :: _ :: t4 =>
                            match t4 with
                            | _ :: _ :: _ :: _ :: t5 =>
                                match decode_uXXXX t4 with
                                | None => Fail InvalidUnicodeEscape (stop + 7)
                                | Some uni2 =>
                                    if ((56320 <=? uni2) && (uni2 <=? 57343))%N
                                    then
                                      scanstring_loop begin
                                        ((65536 + N.lor (N.shiftl (uni - 55296) 10)
                                                        (uni2 - 56320))%N :: chunks)
                                        t5 (stop + 12)
                                    else scanstring_loop begin (uni :: chunks) t3 (stop + 6)
                                end
                            | _ => Fail InvalidUnicodeEscape (stop + 7)
                            end
                        | _ => scanstring_loop begin (uni :: chunks) t3 (stop + 6)
                        end
                      else scanstring_loop begin (uni :: chunks) t3 (stop + 6)
                  end
              | _ => Fail InvalidUnicodeEscape (stop + 1)
              end
            else
              match BACKSLASH esc with
              | None => Fail (InvalidEscape esc) (stop + 1)
              | Some char => scanstring_loop begin (char :: chunks) t2 (stop + 2)
              end
        end
      else if (ord c <? 32)%nat then Fail (InvalidControlCharacter c) (stop + 1)
      else scanstring_loop begin (N_of_ascii c :: chunks) t1 (stop + 1)
  end.

(** [scanstring(s, end)], [end] being the index behind the opening quote. *)
Definition scanstring (s : str) (stop : nat) : scan ustr :=
  scanstring_loop (stop - 1) [] (drop stop s) stop.

(** *** Objects and arrays: [JSONObject], [JSONArray], [_scan_once] *)

(** [d[k] = v] on a dictionary kept in insertion order. *)
Fixpoint dict_set (k : ustr) (v : value) (d : list (ustr * value))
  : list (ustr * value) :=
  match d with
  | [] => [(k, v)]
  | (k', v') :: d' =>
      if bool_decide (k = k') then (k, v) :: d' else (k', v') :: dict_set k v d'
  end.

(** [dict(pairs)] *)
Definition dict (pairs : list (ustr * value)) : list (ustr * value) :=
  fold_left (fun d kv => dict_set kv.1 kv.2 d) pairs [].

(** The guarded look-ahead

      try:
          if s[end] in _ws:
              end += 1
              if s[end] in _ws:
                  end = _w(s, end + 1).end()
      except IndexError:
          pass *)
Definition skip_ws_fast (s : str) (stop : nat) : nat :=
  match s !! stop with
  | None => stop
  | Some c =>
      if is_ws c then
        match s !! (stop + 1)%nat with
        | None => (stop + 1)%nat
        | Some c' => if is_ws c' then ws_end s (stop + 2) else (stop + 1)%nat
        end
      else stop
  end.

Section Scanner.

Variable s : str.

(** [JSONObject] up to its loop: [stop] is the index behind the brace. *)
Definition JSONObject (loop : list (ustr * value) → nat → scan value)
    (stop : nat) : scan value :=
  if char_is s stop dquote then loop [] (stop + 1)%nat
  else
    let stop := if ws_or_end s stop then ws_end s stop else stop in
    if char_is s stop "}" then Done (Dict (dict [])) (stop + 1)
    else if char_is s stop dquote then loop [] (stop + 1)%nat
    else Fail ExpectingPropertyName stop.

(** [JSONArray] up to its loop: [stop] is the index behind the bracket. *)
Definition JSONArray (loop : list value → nat → scan value) (stop : nat)
  : scan value :=
  let stop := if ws_or_end s stop then ws_end s (stop + 1) else stop in
  if char_is s stop "]" then Done (List []) (stop + 1)
  else loop [] stop.

(** [_scan_once] and the two [while True] loops, which call each other.
    Every call and every turn of a loop takes one round. *)
Fixpoint scan_once (rounds : nat) (idx : nat) {struct rounds} : scan value :=
  match rounds with
  | O => Exhausted
  | S rounds =>
      match s !! idx with
      | None => Stop idx
      | Some nextchar =>
          if Ascii.eqb nextchar dquote then
            match scanstring s (idx + 1) with
            | Done u stop => Done (Str u) stop
            | Stop i => Stop i
            | Fail msg pos => Fail msg pos
            | Exhausted => Exhausted
            end
          else if Ascii.eqb nextchar "{" then
            JSONObject (object_loop rounds) (idx + 1)
          else if Ascii.eqb nextchar "[" then
            JSONArray (array_loop rounds) (idx + 1)
          else if Ascii.eqb nextchar "n" && word_at s idx "null" then
            Done Null (idx + 4)
          else if Ascii.eqb nextchar "t" && word_at s idx "true" then
            Done (Bool true) (idx + 4)
          else if Ascii.eqb nextchar "f" && word_at s idx "false" then
            Done (Bool false) (idx + 5)
          else
            match scan_number s idx with
            | Some (res, stop) => Done res stop
            | None =>
                if Ascii.eqb nextchar "N" && word_at s idx "NaN" then
                  Done (Float (lit "NaN")) (idx + 3)
                else if Ascii.eqb nextchar "I" && word_at s idx "Infinity" then
                  Done (Float (lit "Infinity")) (idx + 8)
                else if Ascii.eqb nextchar "-" && word_at s idx "-Infinity" then
                  Done (Float (lit "-Infinity")) (idx + 9)
                else Stop idx
            end
      end
  end

with object_loop (rounds : nat) (pairs : list (ustr * value)) (stop : nat)
    {struct rounds} : scan value :=
  match rounds with
  | O => Exhausted
  | S rounds =>
      match scanstring s stop with
      | Stop i => Stop i
      | Fail msg pos => Fail msg pos
      | Exhausted => Exhausted
      | Done key stop =>
          let stop := if char_is s stop ":" then stop else ws_end s stop in
          if negb (char_is s stop ":") then Fail ExpectingColon stop
          else
            let stop := skip_ws_fast s (stop + 1) in
            match scan_once rounds stop with
            | Stop i => Fail ExpectingValue i
            | Fail msg pos => Fail msg pos
            | Exhausted => Exhausted
            | Done v stop =>
                let pairs := pairs ++ [(key, v)] in
                let '(stop, nextchar) :=
                  match s !! stop with
                  | None => (stop, None)
                  | Some c =>
                      if is_ws c then
                        let e := ws_end s (stop + 1) in (e, s !! e)
                      else (stop, Some c)
                  end in
                if bool_decide (nextchar = Some "}"%char) then
                  Done (Dict (dict pairs)) (stop + 1)
                else if negb (bool_decide (nextchar = Some ","%char)) then
                  Fail ExpectingComma stop
                else
                  let stop := ws_end s (stop + 1) in
                  if negb (char_is s stop dquote) then Fail ExpectingPropertyName stop
                  else object_loop rounds pairs (stop + 1)%nat
            end
      end
  end

with array_loop (rounds : nat) (values : list value) (stop : nat)
    {struct rounds} : scan value :=
  match rounds with
  | O => Exhausted
  | S rounds =>
      match scan_once rounds stop with
      | Stop i => Fail ExpectingValue i
      | Fail msg pos => Fail msg pos
      | Exhausted => Exhausted
      | Done v stop =>
          let values := values ++ [v] in
          let stop := if ws_or_end s stop then ws_end s (stop + 1) else stop in
          if char_is s stop "]" then Done (List values) (stop + 1)
          else if negb (char_is s stop ",") then Fail ExpectingComma stop
          else array_loop rounds values (skip_ws_fast s (stop + 1))
      end
  end.

(** [JSONDecoder.raw_decode] followed by the tail of [JSONDecoder.decode]. *)
Definition decode (rounds : nat) : scan value :=
  match scan_once rounds (ws_end s 0) with
  | Stop i => Fail ExpectingValue i
  | Fail msg pos => Fail msg pos
  | Exhausted => Exhausted
  | Done obj stop =>
      let stop := ws_end s stop in
      if bool_decide (stop = length s) then Done obj stop
      else Fail ExtraData stop
  end.

End Scanner.

(** The number of rounds the decoder is given on [s]; it never needs more
    ([Json.decode_never_exhausted]). *)
Definition rounds_for (s : str) : nat := (2 * length s + 1)%nat.

End Json.

(** ** Exceptions, the world and the monad *)

(** The exceptions that travel between the functions modelled here.
    [Exception_ msg] is a plain [Exception(msg)]: it has a message and
    nothing else. *)
Inductive exn :=
| ValueError (msg : str)
| Exception_ (msg : str)
| IndexError
| AttributeError (msg : str)
| JSONDecodeError (msg : Json.reason) (doc : str) (pos : nat)
| RecursionError.

(** [json.loads(s)] on a [str].  Its test for a byte order mark U+FEFF at
    the head of [s] cannot succeed on characters below 256 and is left out.
    The decoder never runs out of the rounds it is given
    ([JsonFacts.decode_never_exhausted]), so the last two cases do not
    arise; the interpreter's own limit on the depth of nesting is not
    modelled. *)
Definition json_loads (s : str) : exn + Json.value :=
  match Json.decode s (Json.rounds_for s) with
  | Json.Done obj _ => inr obj
  | Json.Fail msg pos => inl (JSONDecodeError msg s pos)
  | Json.Stop pos => inl (JSONDecodeError Json.ExpectingValue s pos)
  | Json.Exhausted => inl RecursionError
  end.

(** The request [generate] hands to [client.models.generate_content]. *)
Record GenerationRequest := {
  model : str;
  contents : str;
  temperature : Q;
  max_output_tokens : Z
}.

(** What the hosted endpoint does with one request: it answers with a text,
    or the SDK raises an exception, of which the code reads
    [type(e).__name__] and [str(e)]. *)
Inductive api_reply :=
| ApiText (text : str)
| ApiRaise (type_name : str) (error_str : str).

(** The lines the client prints, by the statement that prints them. *)
Inductive diag :=
| InitOk (model_name : str)
| ApiError (type_name : str) (error_str : str)
| QuotaExceeded
| ModelNotFound (model_name : str)
| AttemptFailed (attempt : Z) (e : exn) (wait_time : Z)
| AllFailed (max_retries : Z) (e : exn).

Inductive event :=
| Request (req : GenerationRequest)
| Sleep (seconds : Z)
| Print (d : diag).

(** The state the code acts on: the process environment, the [.env] file
    that [load_dotenv] reads, the number of requests the endpoint has seen
    and everything observable done so far. *)
Record world := {
  environ : gmap string str;
  dotenv_file : gmap string str;
  calls : nat;
  log : list event
}.

Definition M (A : Type) : Type := world → (exn + A) * world.

Definition ret {A} (a : A) : M A := λ w, (inr a, w).

Definition bind {A B} (m : M A) (k : A → M B) : M B :=
  λ w, match m w with
       | (inr a, w') => k a w'
       | (inl e, w') => (inl e, w')
       end.

Definition raise {A} (e : exn) : M A := λ w, (inl e, w).

(** [try: m  except Exception as e: h e] *)
Definition try_except {A} (m : M A) (h : exn → M A) : M A :=
  λ w, match m w with
       | (inl e, w') => h e w'
       | r => r
       end.

Definition emit (ev : event) : M unit :=
  λ w, (inr tt, {| environ := environ w; dotenv_file := dotenv_file w;
                   calls := calls w; log := log w ++ [ev] |}).

Definition print (d : diag) : M unit := emit (Print d).

(** [time.sleep(seconds)] *)
Definition sleep (seconds : Z) : M unit := emit (Sleep seconds).

Declare Scope py_scope.
Delimit Scope py_scope with py.
Notation "x <- m ;; k" := (bind m (λ x, k))
  (at level 100, m at next level, right associativity) : py_scope.
Notation "m ;; k" := (bind m (λ _, k))
  (at level 100, right associativity) : py_scope.
Local Open Scope py_scope.

(** [load_dotenv()]: the variables of the [.env] file enter the
    environment, those already set keep their value. *)
Definition load_dotenv : M unit :=
  λ w, (inr tt, {| environ := environ w ∪ dotenv_file w;
                   dotenv_file := dotenv_file w;
                   calls := calls w; log := log w |}).

(** [os.getenv(name)] *)
Definition getenv (name : string) : M (option str) :=
  λ w, (inr (environ w !! name), w).

(** ** [src/src/llm/client.py] *)

Section Client.

(** The hosted endpoint: its reply to the [n]-th request it receives
    (counted from 0). *)
Variable endpoint : nat → GenerationRequest → api_reply.

(** [self.client.models.generate_content(...)] *)
Definition generate_content (req : GenerationRequest) : M api_reply :=
  λ w, (inr (endpoint (calls w) req),
        {| environ := environ w; dotenv_file := dotenv_file w;
           calls := S (calls w); log := log w ++ [Request req] |}).

Record GeminiClient := {
  api_key : str;
  model_name : str
}.

Definition default_model_name : str := lit "models/gemini-2.5-flash".

Definition missing_key_message : str :=
  lit "GOOGLE_API_KEY not found in environment variables. " ++
  lit "Please create a .env file with your API key. " ++
  lit "Get your key from: https://aistudio.google.com/apikey".

(** [GeminiClient.__init__] *)
Definition GeminiClient_init (model_name : str) : M GeminiClient :=
  load_dotenv ;;
  api_key <- getenv "GOOGLE_API_KEY" ;;
  match api_key with
  | None | Some [] => raise (ValueError missing_key_message)
  | Some api_key =>
      print (InitOk model_name) ;;
      ret {| api_key := api_key; model_name := model_name |}
  end.

(** The keyword arguments of [generate]. *)
Record kwargs := {
  kw_temperature : option Q;
  kw_max_tokens : option Z
}.

Definition no_kwargs : kwargs := {| kw_temperature := None; kw_max_tokens := None |}.

(** The branch of [generate]'s handler that an error text selects. *)
Inductive hint := HintQuota | HintNotFound | NoHint.

Definition error_hint (error_str : str) : hint :=
  if contains (lit "429") error_str || contains (lit "RESOURCE_EXHAUSTED") error_str
  then HintQuota
  else if contains (lit "404") error_str || contains (lit "not found") (lower error_str)
  then HintNotFound
  else NoHint.

Definition failure_prefix : str := lit "Gemini generation failed: ".

(** [Exception(f"Gemini generation failed: {error_str}")] *)
Definition generation_failed (error_str : str) : exn :=
  Exception_ (failure_prefix ++ error_str).

(** The arguments [generate] passes to [generate_content]; [temperature]
    defaults to 0.7 and [max_tokens] to [None]. *)
Definition request_of (self : GeminiClient) (prompt : str) (kw : kwargs)
  : GenerationRequest :=
  let temperature := default (7 # 10)%Q (kw_temperature kw) in
  let max_tokens := kw_max_tokens kw in
  {| model := model_name self;
     contents := prompt;
     temperature := temperature;
     max_output_tokens :=
       match max_tokens with
       | Some n => if n =? 0 then 8192 else n
       | None => 8192
       end |}.

(** [GeminiClient.generate] *)
Definition generate (self : GeminiClient) (prompt : str) (kw : kwargs) : M str :=
  response <- generate_content (request_of self prompt kw) ;;
  match response with
  | ApiText text => ret text
  | ApiRaise type_name error_str =>
      print (ApiError type_name error_str) ;;
      match error_hint error_str with
      | HintQuota => print QuotaExceeded
      | HintNotFound => print (ModelNotFound (model_name self))
      | NoHint => ret tt
      end ;;
      raise (generation_failed error_str)
  end.

(** The [for attempt in range(max_retries)] loop of [generate_with_retry]:
    [todo] turns are left, the next one has index [attempt].  Leaving the
    loop at the end of the range leaves the function, which then returns
    [None]. *)
Fixpoint retry_loop (self : GeminiClient) (prompt : str) (max_retries : Z)
    (kw : kwargs) (todo : nat) (attempt : Z) : M (option str) :=
  match todo with
  | O => ret None
  | S todo =>
      try_except
        (text <- generate self prompt kw ;; ret (Some text))
        (λ e,
           if attempt <? max_retries - 1 then
             let wait_time := 2 ^ attempt in
             print (AttemptFailed (attempt + 1) e wait_time) ;;
             sleep wait_time ;;
             retry_loop self prompt max_retries kw todo (attempt + 1)
           else
             print (AllFailed max_retries e) ;;
             raise e)
  end.

(** [GeminiClient.generate_with_retry]; [max_retries] defaults to 3. *)
Definition generate_with_retry (self : GeminiClient) (prompt : str)
    (max_retries : option Z) (kw : kwargs) : M (option str) :=
  let max_retries := default 3 max_retries in
  retry_loop self prompt max_retries kw (Z.to_nat max_retries) 0.

End Client.

(** ** [src/check_quota.py]: the error report of [check_quota] *)

Inductive quota_report :=
| ReportQuotaExceeded
| ReportInvalidKey
| ReportModelNotFound
| ReportUnknown.

Definition check_quota_report (error_str : str) : quota_report :=
  if contains (lit "429") error_str || contains (lit "RESOURCE_EXHAUSTED") error_str
  then ReportQuotaExceeded
  else if contains (lit "401") error_str || contains (lit "UNAUTHORIZED") error_str
  then ReportInvalidKey
  else if contains (lit "404") error_str then ReportModelNotFound
  else ReportUnknown.

(** ** [src/Home.py]: recovering the structured value from a reply *)

(** The career-path tab expects an object, the recommender tab an array;
    their parsing blocks differ in the bounding characters only. *)
Inductive shape := Object | Array.

Definition opening (sh : shape) : str :=
  match sh with Object => lit "{" | Array => lit "[" end.

Definition closing (sh : shape) : str :=
  match sh with Object => lit "}" | Array => lit "]" end.

Definition fence : str := lit "```".
Definition json_fence : str := lit "```json".

(** [l[i]] *)
Definition item {A} (l : list A) (i : nat) : exn + A :=
  match l !! i with Some a => inr a | None => inl IndexError end.

(** Lines 380-386 and 469-475: the fences. *)
Definition unfence (response : str) : exn + str :=
  let json_str := strip response in
  if contains json_fence json_str then
    match item (split json_fence json_str) 1 with
    | inl e => inl e
    | inr tagged =>
        match item (split fence tagged) 0 with
        | inl e => inl e
        | inr body => inr (strip body)
        end
    end
  else if contains fence json_str then
    let parts := split fence json_str in
    if (2 <=? length parts)%nat then
      match item parts 1 with
      | inl e => inl e
      | inr body => inr (strip body)
      end
    else inr json_str
  else inr json_str.

(** Lines 388-391 and 477-480: the bounding characters. *)
Definition between_delimiters (sh : shape) (json_str : str) : str :=
  if contains (opening sh) json_str && contains (closing sh) json_str then
    let start := find (opening sh) json_str in
    let stop := rfind (closing sh) json_str + 1 in
    slice json_str start stop
  else json_str.

(** The text that reaches [json.loads]. *)
Definition isolate (sh : shape) (response : str) : exn + str :=
  match unfence response with
  | inl e => inl e
  | inr json_str => inr (between_delimiters sh json_str)
  end.

(** What the parsing block ends in: the parsed value, or the exception the
    [except Exception] clause of the block receives. *)
Inductive ExtractionOutcome :=
| Parsed (v : Json.value)
| Failed (e : exn).

Definition extract (sh : shape) (response : str) : ExtractionOutcome :=
  match isolate sh response with
  | inl e => Failed e
  | inr json_str =>
      match json_loads json_str with
      | inr v => Parsed v
      | inl e => Failed e
      end
  end.

Section Home.

Variable endpoint : nat → GenerationRequest → api_reply.

Definition lift {A} (r : exn + A) : M A :=
  match r with inl e => raise e | inr a => ret a end.

(** [response.strip()] on what [generate_with_retry] returned. *)
Definition strip_response (response : option str) : M str :=
  match response with
  | Some r => ret r
  | None => raise (AttributeError (lit "'NoneType' object has no attribute 'strip'"))
  end.

(** The [try] blocks of the two tabs, from the construction of the client
    to [json.loads] (lines 374-394 and 464-482), with their
    [except Exception] clause.  What the tabs do with the parsed value
    afterwards is not part of the model. *)
Definition generate_and_extract (sh : shape) (prompt : str) (temperature : Q)
  : M ExtractionOutcome :=
  try_except
    (llm_client <- GeminiClient_init default_model_name ;;
     response <- generate_with_retry endpoint llm_client prompt None
                   {| kw_temperature := Some temperature; kw_max_tokens := None |} ;;
     response <- strip_response response ;;
     json_str <- lift (isolate sh response) ;;
     v <- lift (json_loads json_str) ;;
     ret (Parsed v))
    (λ e, ret (Failed e)).

Definition career_path_tab (career_prompt : str) : M ExtractionOutcome :=
  generate_and_extract Object career_prompt (5 # 10)%Q.

Definition recommender_tab (recommend_prompt : str) : M ExtractionOutcome :=
  generate_and_extract Array recommend_prompt (6 # 10)%Q.

End Home.

(** ** [src/check_quota.py]: the probe *)

Definition placeholder_key : str := lit "your_gemini_api_key_here".

Definition probe_model : str := lit "models/gemini-2.5-flash".

Definition probe_contents : str := lit "Reply with just the word 'OK'".

(** The lines [check_quota] prints, by the statements that print them. *)
Inductive quota_line :=
| LineBanner
| LineNotConfigured
| LineKeyLoaded (head tail : str)
| LineTesting
| LineWorking (response : str)
| LineApiError (error_head : str)
| LineReport (r : quota_report).

(** One run of the script: what [check_quota] returned, the requests it
    sent (model and contents) and the lines it printed. *)
Record quota_run := {
  success : bool;
  probes : list (str * str);
  lines : list quota_line
}.

(** [check_quota()], after the [load_dotenv()] of the module: [probe] is
    the endpoint's reaction to the one request the function may send.  The
    import and the construction of the client (lines 25-26) are taken to
    succeed, and an answer to carry a text. *)
Definition check_quota (environ dotenv_file : gmap string str)
    (probe : str → str → api_reply) : quota_run :=
  let not_configured :=
    {| success := false; probes := []; lines := [LineBanner; LineNotConfigured] |} in
  match (environ ∪ dotenv_file) !! "GOOGLE_API_KEY" with
  | None => not_configured
  | Some api_key =>
      if bool_decide (api_key = []) || bool_decide (api_key = placeholder_key)
      then not_configured
      else
        let loaded := LineKeyLoaded (slice api_key 0 10) (slice api_key (-4) (len api_key)) in
        match probe probe_model probe_contents with
        | ApiText text =>
            {| success := true;
               probes := [(probe_model, probe_contents)];
               lines := [LineBanner; loaded; LineTesting; LineWorking (strip text)] |}
        | ApiRaise _ error_str =>
            {| success := false;
               probes := [(probe_model, probe_contents)];
               lines := [LineBanner; loaded; LineTesting;
                         LineApiError (slice error_str 0 200);
                         LineReport (check_quota_report error_str)] |}
        end
  end.

(** [exit(0 if success else 1)] *)
Definition exit_status (run : quota_run) : Z := if success run then 0 else 1.

(** ** [src/src/llm/career_prompts.py] *)

(** A literal of the source that has double quotes and line breaks in it,
    written with ~ for the quote and | for the line break. *)
Definition tpl (s : string) : str :=
  map (λ c, if Ascii.eqb c "~" then dquote
            else if Ascii.eqb c "|" then chr 10 else c) (lit s).

(** The truth value of a [str]: it is not empty. *)
Definition truthy (s : str) : bool :=
  match s with [] => false | _ :: _ => true end.

(** [sep.join(parts)] *)
Fixpoint join (sep : str) (parts : list str) : str :=
  match parts with
  | [] => []
  | [p] => p
  | p :: rest => p ++ sep ++ join sep rest
  end.

(** The literal of lines 30-32. *)
Definition career_system_context : str :=
  tpl "You are an expert career counselor and curriculum designer. |" ++
  tpl "You create personalized learning paths that align with specific career goals, considering |" ++
  tpl "the learner's background, timeline, and the current industry requirements.".

(** The literal of lines 49-94.  It is not an f-string: the braces in it
    are characters of the prompt. *)
Definition career_structure_requirements : str :=
  tpl "|" ++
  tpl "The curriculum should be structured into modules/semesters with:|" ++
  tpl "- Industry-relevant courses and skills|" ++
  tpl "- Practical projects that build a portfolio|" ++
  tpl "- Prerequisites properly sequenced|" ++
  tpl "- Clear milestones toward the career goal|" ++
  tpl "|" ++
  tpl "IMPORTANT: Return ONLY valid JSON with no markdown formatting.|" ++
  tpl "|" ++
  tpl "JSON Format:|" ++
  tpl "{|" ++
  tpl "  ~title~: ~Career Path to [Role]~,|" ++
  tpl "  ~level~: ~Professional Development~,|" ++
  tpl "  ~duration_semesters~: [calculated from months],|" ++
  tpl "  ~total_credits~: [reasonable total],|" ++
  tpl "  ~overview~: ~Overview of the learning path and how it leads to the target role~,|" ++
  tpl "  ~learning_outcomes~: [~outcome 1~, ~outcome 2~, ...],|" ++
  tpl "  ~career_paths~: [~Primary role and related opportunities~],|" ++
  tpl "  ~semesters~: [|" ++
  tpl "    {|" ++
  tpl "      ~semester_number~: 1,|" ++
  tpl "      ~total_credits~: number,|" ++
  tpl "      ~courses~: [|" ++
  tpl "        {|" ++
  tpl "          ~code~: ~COURSE101~,|" ++
  tpl "          ~name~: ~Course Name~,|" ++
  tpl "          ~credits~: 3,|" ++
  tpl "          ~description~: ~Brief description~,|" ++
  tpl "          ~prerequisites~: [],|" ++
  tpl "          ~category~: ~Core/Elective/Project~|" ++
  tpl "        }|" ++
  tpl "      ]|" ++
  tpl "    }|" ++
  tpl "  ]|" ++
  tpl "}|" ++
  tpl "|" ++
  tpl "CRITICAL REQUIREMENTS:|" ++
  tpl "1. Each course must have 1-6 credits only|" ++
  tpl "2. Include practical projects and portfolio-building courses|" ++
  tpl "3. Align content with real job requirements for {target_role}|" ++
  tpl "4. Progress from fundamentals to job-ready skills|" ++
  tpl "5. Include relevant tools, frameworks, and technologies|" ++
  tpl "6. Add capstone/portfolio project in final semester|" ++
  tpl "7. Use proper JSON formatting (double quotes, no trailing commas)|" ++
  tpl "|" ++
  tpl "Return only the JSON object.".

(** The literal of line 118. *)
Definition recommendation_system_context : str :=
  tpl "You are an academic advisor providing personalized course recommendations.".

(** The literal of lines 130-148. *)
Definition recommendation_format : str :=
  tpl "|" ++
  tpl "Recommend 5-8 courses that would be most beneficial next. For each course provide:|" ++
  tpl "- Course code and name|" ++
  tpl "- Why it's recommended|" ++
  tpl "- How it builds on completed courses|" ++
  tpl "- How it aligns with interests/career goals|" ++
  tpl "|" ++
  tpl "Return recommendations as a JSON array:|" ++
  tpl "[|" ++
  tpl "  {|" ++
  tpl "    ~code~: ~COURSE101~,|" ++
  tpl "    ~name~: ~Course Name~,|" ++
  tpl "    ~credits~: 3,|" ++
  tpl "    ~reason~: ~Why this course is recommended~,|" ++
  tpl "    ~category~: ~Core/Elective/Project~|" ++
  tpl "  }|" ++
  tpl "]|" ++
  tpl "|" ++
  tpl "Use valid JSON format only.".

(** [get_career_path_prompt] *)
Definition get_career_path_prompt (target_role current_level : str)
    (duration_months : Z) (background : option str)
    (preferences : option (list str)) : str :=
  let prompt_parts := [] in
  let prompt_parts := prompt_parts ++ [career_system_context] in
  let prompt_parts :=
    prompt_parts ++
    [tpl "|Create a comprehensive learning curriculum for someone who wants to become a **"
       ++ target_role ++ tpl "**.||Current Level: " ++ current_level
       ++ tpl "|Available Time: " ++ str_of_Z duration_months ++ tpl " months|"] in
  let prompt_parts :=
    match background with
    | Some ((_ :: _) as background) => prompt_parts ++ [lit "Background: " ++ background]
    | _ => prompt_parts
    end in
  let prompt_parts :=
    match preferences with
    | Some ((_ :: _) as preferences) =>
        prompt_parts ++ [lit "Learning Preferences: " ++ join (lit ", ") preferences]
    | _ => prompt_parts
    end in
  let prompt_parts := prompt_parts ++ [career_structure_requirements] in
  join (tpl "|") prompt_parts.

(** [get_course_recommendation_prompt] *)
Definition get_course_recommendation_prompt (completed_courses interests : list str)
    (career_goal : option str) : str :=
  let prompt_parts := [] in
  let prompt_parts := prompt_parts ++ [recommendation_system_context] in
  let prompt_parts :=
    prompt_parts ++
    [tpl "|Based on the following information your task is to recommend:||Completed Courses: "
       ++ (match completed_courses with
           | _ :: _ => join (lit ", ") completed_courses
           | [] => lit "None (beginner)"
           end)
       ++ tpl "|Interests: " ++ join (lit ", ") interests ++ tpl "|"] in
  let prompt_parts :=
    match career_goal with
    | Some ((_ :: _) as career_goal) => prompt_parts ++ [lit "Career Goal: " ++ career_goal]
    | _ => prompt_parts
    end in
  let prompt_parts := prompt_parts ++ [recommendation_format] in
  join (tpl "|") prompt_parts.

(** ** [src/Home.py]: from the fields of a form to the prompt *)

(** [[x.strip() for x in s.split(sep) if x.strip()]] *)
Definition stripped_fields (sep s : str) : list str :=
  omap (λ x, if truthy (strip x) then Some (strip x) else None) (split sep s).

(** [x if x else None] *)
Definition or_None (x : str) : option str :=
  if truthy x then Some x else None.

(** Lines 362-371: the prompt of the career-path tab, if the form is
    submitted with a target role. *)
Definition career_form_prompt (target_role current_level : str) (duration : Z)
    (background preferences : str) : option str :=
  if truthy target_role then
    let pref_list :=
      if truthy preferences then Some (stripped_fields (lit ",") preferences) else None in
    Some (get_career_path_prompt target_role current_level duration
            (or_None background) pref_list)
  else None.

(** Lines 453-461: the prompt of the recommender tab, if the form is
    submitted with interests. *)
Definition recommender_form_prompt (completed interests goal : str) : option str :=
  if truthy interests then
    let completed_list := stripped_fields (tpl "|") completed in
    let interest_list := stripped_fields (lit ",") interests in
    Some (get_course_recommendation_prompt completed_list interest_list (or_None goal))
  else None.

(** * Vocabulary of the properties *)

(** [sub] occurs in [s] at index [i]. *)
Definition occurs_at (sub s : str) (i : nat) : Prop :=
  ∃ a b, s = a ++ sub ++ b ∧ length a = i.

(** The text up to the lowest occurrence of [sep], or all of it. *)
Definition before (sep s : str) : str :=
  match index_of sep s with Some i => take i s | None => s end.

(** A scanning function started at index [p] advances: it does not run out
    of rounds, and a value it returns ends behind [p]. *)
Definition advances {A} (p : nat) (r : Json.scan A) : Prop :=
  match r with
  | Json.Done _ stop => (p < stop)%nat
  | Json.Exhausted => False
  | _ => True
  end.

(** The same, but for running out of rounds. *)
Definition progresses {A} (p : nat) (r : Json.scan A) : Prop :=
  match r with
  | Json.Done _ stop => (p < stop)%nat
  | _ => True
  end.

(** The outcome of the parsing block once [json.loads] has returned or
    raised. *)
Definition outcome_of (r : exn + Json.value) : ExtractionOutcome :=
  match r with inr v => Parsed v | inl e => Failed e end.

(** The bounding characters of a shape. *)
Definition open_char (sh : shape) : ascii :=
  match sh with Object => "{" | Array => "[" end%char.

Definition close_char (sh : shape) : ascii :=
  match sh with Object => "}" | Array => "]" end%char.

(** The content between the first JSON-tagged opening fence of a reply and
    the closing fence that matches it, that is the first fence behind it,
    in the words of the specification. *)
Definition first_tagged_block (reply : str) : option str :=
  i ← index_of json_fence reply;
  let rest := drop (i + length json_fence) reply in
  k ← index_of fence rest;
  Some (take k rest).

(** The requests and sleeps of a log, in order, without the printed lines. *)
Definition timeline (l : list event) : list event :=
  List.filter (λ ev, match ev with Print _ => false | _ => true end) l.

(** The sleeps of a log, and its requests. *)
Definition sleeps (l : list event) : list Z :=
  omap (λ ev, match ev with Sleep n => Some n | _ => None end) l.

Definition requests (l : list event) : list GenerationRequest :=
  omap (λ ev, match ev with Request r => Some r | _ => None end) l.

(** The request was answered. *)
Definition is_text (r : api_reply) : bool :=
  match r with ApiText _ => true | ApiRaise _ _ => false end.

(** What the retry loop does towards the endpoint and the clock, as a
    function of which requests succeed: [ok n] tells whether the [n]-th
    request is answered with a text. *)
Fixpoint plan (ok : nat → bool) (req : GenerationRequest) (max_retries : Z)
    (todo : nat) (attempt : Z) (n : nat) : list event :=
  match todo with
  | O => []
  | S todo =>
      Request req ::
      if ok n then []
      else if attempt <? max_retries - 1
           then Sleep (2 ^ attempt) :: plan ok req max_retries todo (attempt + 1) (S n)
           else []
  end.

(** [sub] differs from [t] at a position both have: whatever follows [t],
    [sub] does not start there. *)
Fixpoint clash (sub t : str) : bool :=
  match sub, t with
  | a :: sub', b :: t' => negb (Ascii.eqb a b) || clash sub' t'
  | _, _ => false
  end.

(** [sub] clashes with [pre] from each of its positions on. *)
Fixpoint clashes_along (sub pre : str) : bool :=
  match pre with
  | [] => true
  | _ :: pre' => clash sub pre && clashes_along sub pre'
  end.

(** The four classes of the specification, and where the two handlers of
    the source land in them. *)
Inductive failure_class := Quota | Unauthorized | NotFound | Unknown.

Definition class_of_hint (h : hint) : failure_class :=
  match h with HintQuota => Quota | HintNotFound => NotFound | NoHint => Unknown end.

Definition class_of_report (r : quota_report) : failure_class :=
  match r with
  | ReportQuotaExceeded => Quota
  | ReportInvalidKey => Unauthorized
  | ReportModelNotFound => NotFound
  | ReportUnknown => Unknown
  end.

(** A text of white space only. *)
Definition blank (l : str) : Prop := Forall (λ c, isspace c = true) l.

(** The time slept in all. *)
Definition total (zs : list Z) : Z := foldr Z.add 0 zs.

(** The keyword arguments a tab passes on. *)
Definition tab_kwargs (temperature : Q) : kwargs :=
  {| kw_temperature := Some temperature; kw_max_tokens := None |}.

(** ** Worlds, endpoints and replies used as examples *)

(** A world with a credential and nothing done yet, and three endpoints:
    one that fails twice before it answers, one that always reports an
    invalid key and one that always reports a server error. *)
Definition fresh_world : world :=
  {| environ := {["GOOGLE_API_KEY" := lit "AIza-example"]};
     dotenv_file := ∅; calls := 0; log := [] |}.

Definition flaky_endpoint (n : nat) (_ : GenerationRequest) : api_reply :=
  match n with
  | 0%nat => ApiRaise (lit "ServerError") (lit "503 UNAVAILABLE")
  | 1%nat => ApiRaise (lit "ClientError") (lit "429 RESOURCE_EXHAUSTED")
  | _ => ApiText (lit "{}")
  end.

Definition unauthorized_endpoint (_ : nat) (_ : GenerationRequest) : api_reply :=
  ApiRaise (lit "ClientError") (lit "401 UNAUTHORIZED").

Definition unavailable_endpoint (_ : nat) (_ : GenerationRequest) : api_reply :=
  ApiRaise (lit "ServerError") (lit "503 UNAVAILABLE").

(** An endpoint that answers every request with a list of one course. *)
Definition answering_endpoint (_ : nat) (_ : GenerationRequest) : api_reply :=
  ApiText (map (λ c, if Ascii.eqb c "'" then dquote else c)
             (lit "[{'code':'C1','credits':3}]")).

Definition example_client : GeminiClient :=
  {| api_key := lit "AIza-example"; model_name := default_model_name |}.

Definition world_without_key : world :=
  {| environ := {["HOME" := lit "/root"]}; dotenv_file := ∅; calls := 0; log := [] |}.

(** A reply, written with ' where it has a double quote and with | where
    it has a line break. *)
Definition reply_text (s : string) : str :=
  map (λ c, if Ascii.eqb c "'" then dquote
            else if Ascii.eqb c "|" then chr 10 else c) (lit s).

Definition tagged_reply : str :=
  reply_text "Here you go: ```json {'title':'X','total_credits':12} ``` Good luck!".

Definition untagged_reply : str :=
  reply_text "Sure: ``` [{'code':'C1','credits':3}] ``` Anything else?".

Definition fence_free_reply : str :=
  reply_text "  Here is the plan: {'title':'X','total_credits':12} Good luck!  ".

(** * Properties *)

(** ** Facts about the string primitives *)

Section StringFacts.

Implicit Types (s t sub sep : str) (c : ascii).

Lemma startswith_prefix sub s : startswith sub s = true ↔ sub `prefix_of` s.
Proof.
  revert s. induction sub as [|a sub IH]; intros [|b s]; simpl.
  - split; [intros _; apply prefix_nil|done].
  - split; [intros _; apply prefix_nil|done].
  - split; [done|]. intros H. by apply prefix_nil_not in H.
  - rewrite andb_true_iff, Ascii.eqb_eq, IH. split.
    + intros [-> H]. by apply prefix_cons.
    + intros H. split; [by apply prefix_cons_inv_1 in H|by apply prefix_cons_inv_2 in H].
Qed.

Lemma startswith_app sub t : startswith sub (sub ++ t) = true.
Proof. apply startswith_prefix. by apply prefix_app_r. Qed.

Lemma occurs_at_drop sub s i :
  occurs_at sub s i ↔ (i ≤ length s)%nat ∧ startswith sub (drop i s) = true.
Proof.
  rewrite startswith_prefix. split.
  - intros (a & b & -> & <-). split; [rewrite length_app; lia|].
    rewrite drop_app_length. by apply prefix_app_r.
  - intros [Hi [b Hb]]. exists (take i s), b. split.
    + by rewrite <- Hb, take_drop.
    + rewrite length_take. lia.
Qed.

Lemma occurs_at_0 sub s : occurs_at sub s 0 ↔ startswith sub s = true.
Proof. rewrite occurs_at_drop. simpl. split; [by intros []|]. split; [lia|done]. Qed.

Lemma occurs_at_S sub c s i : occurs_at sub (c :: s) (S i) ↔ occurs_at sub s i.
Proof. rewrite !occurs_at_drop. simpl. split; intros []; split; (lia || done). Qed.

Lemma occurs_at_nil sub i : occurs_at sub [] i → startswith sub [] = true.
Proof. intros [_ H]%occurs_at_drop. by rewrite drop_nil in H. Qed.

(** [index_of] finds an occurrence, and the lowest one. *)
Lemma index_of_sound sub s : ∀ i,
  index_of sub s = Some i →
  occurs_at sub s i ∧ ∀ j, (j < i)%nat → ¬ occurs_at sub s j.
Proof.
  induction s as [|c s IH]; intros i; simpl.
  - destruct (startswith sub []) eqn:E; [|done].
    intros [= <-]. split; [by apply occurs_at_0|lia].
  - destruct (startswith sub (c :: s)) eqn:E.
    + intros [= <-]. split; [by apply occurs_at_0|lia].
    + destruct (index_of sub s) as [k|]; [|done]. simpl. intros [= <-].
      destruct (IH k eq_refl) as [Hk Hmin]. split; [by apply occurs_at_S|].
      intros [|j] Hj; [rewrite occurs_at_0; congruence|].
      rewrite occurs_at_S. apply Hmin. lia.
Qed.

Lemma index_of_None sub s :
  index_of sub s = None → ∀ j, ¬ occurs_at sub s j.
Proof.
  induction s as [|c s IH]; simpl.
  - destruct (startswith sub []) eqn:E; [done|].
    intros _ j H%occurs_at_nil. congruence.
  - destruct (startswith sub (c :: s)) eqn:E; [done|].
    destruct (index_of sub s) as [k|]; [done|]. intros _ [|j].
    + rewrite occurs_at_0. congruence.
    + rewrite occurs_at_S. by apply IH.
Qed.

Lemma index_of_Some sub s i :
  index_of sub s = Some i ↔
  occurs_at sub s i ∧ ∀ j, (j < i)%nat → ¬ occurs_at sub s j.
Proof.
  split; [apply index_of_sound|]. intros [Hi Hmin].
  destruct (index_of sub s) as [k|] eqn:E.
  - apply index_of_sound in E as [Hk Hmin']. f_equal.
    destruct (Nat.lt_trichotomy i k) as [Hlt|[->|Hgt]]; [|done|].
    + by destruct (Hmin' i Hlt).
    + by destruct (Hmin k Hgt).
  - by destruct (index_of_None sub s E i).
Qed.

(** [sub in s] holds exactly when [s] is [a ++ sub ++ b] for some [a], [b]. *)
Lemma contains_true sub s :
  contains sub s = true ↔ ∃ a b, s = a ++ sub ++ b.
Proof.
  unfold contains. rewrite bool_decide_eq_true. split.
  - intros [i [(a & b & -> & _) _]%index_of_sound]. by exists a, b.
  - intros (a & b & Hs). destruct (index_of sub s) as [k|] eqn:E; [done|].
    destruct (index_of_None sub s E (length a)). by exists a, b.
Qed.

Lemma contains_false sub s :
  contains sub s = false ↔ index_of sub s = None.
Proof.
  unfold contains. rewrite bool_decide_eq_false.
  destruct (index_of sub s); split; try done.
  intros H. destruct H. done.
Qed.

(** A part of a text without [sub] is without [sub]. *)
Lemma contains_false_part sub a s b :
  contains sub (a ++ s ++ b) = false → contains sub s = false.
Proof.
  intros H. apply not_true_iff_false. rewrite contains_true.
  intros (a' & b' & ->). apply not_true_iff_false in H. apply H.
  apply contains_true. exists (a ++ a'), (b' ++ b). by rewrite <- !app_assoc.
Qed.

(** A text without [sub] is without anything that has [sub] in it. *)
Lemma contains_false_longer sub sub' s :
  contains sub sub' = true → contains sub s = false → contains sub' s = false.
Proof.
  intros (a & b & ->)%contains_true H. apply not_true_iff_false.
  rewrite contains_true. intros (a' & b' & ->).
  apply not_true_iff_false in H. apply H. apply contains_true.
  exists (a' ++ a), (b ++ b'). by rewrite <- !app_assoc.
Qed.

(** [find] under the guard [sub in s]. *)
Lemma find_index_of sub s i : index_of sub s = Some i → find sub s = Z.of_nat i.
Proof. unfold find. by intros ->. Qed.

Lemma index_of_bound sub s i :
  index_of sub s = Some i → (i + length sub ≤ length s)%nat.
Proof.
  intros [(a & b & -> & <-) _]%index_of_sound. rewrite !length_app. lia.
Qed.

Lemma index_of_split sub s i :
  index_of sub s = Some i → s = take i s ++ sub ++ drop (i + length sub) s.
Proof.
  intros [(a & b & -> & <-) _]%index_of_sound.
  rewrite take_app_length, app_assoc, <- length_app, drop_app_length.
  by rewrite <- app_assoc.
Qed.

Lemma index_of_nil_sep sep : sep ≠ [] → index_of sep [] = None.
Proof. by destruct sep. Qed.

(** Once [rounds] reaches the length of the text, more rounds change
    nothing. *)
Lemma split_rounds_stable sep : sep ≠ [] → ∀ r1 r2 s,
  (length s ≤ r1)%nat → (length s ≤ r2)%nat →
  split_rounds r1 sep s = split_rounds r2 sep s.
Proof.
  intros Hsep. induction r1 as [|r1 IH]; intros r2 s H1 H2.
  - destruct s; [|simpl in H1; lia].
    destruct r2; [done|]. cbn [split_rounds]. by rewrite index_of_nil_sep.
  - destruct r2 as [|r2].
    + destruct s; [|simpl in H2; lia]. cbn [split_rounds].
      by rewrite index_of_nil_sep.
    + cbn [split_rounds]. destruct (index_of sep s) as [i|] eqn:E; [|done].
      f_equal. apply index_of_bound in E.
      assert (0 < length sep)%nat by (destruct sep; [done|simpl; lia]).
      apply IH; rewrite length_drop; lia.
Qed.

Lemma split_rounds_enough sep r s :
  sep ≠ [] → (length s ≤ r)%nat → split_rounds r sep s = split sep s.
Proof. intros. by apply split_rounds_stable. Qed.

(** [split] cuts at the lowest occurrence and splits what follows it. *)
Lemma split_unfold sep s :
  sep ≠ [] →
  split sep s =
    match index_of sep s with
    | None => [s]
    | Some i => take i s :: split sep (drop (i + length sep) s)
    end.
Proof.
  intros Hsep. unfold split at 1. destruct (length s) as [|n] eqn:En.
  - destruct s; [|done]. cbn [split_rounds]. by rewrite index_of_nil_sep.
  - cbn [split_rounds]. destruct (index_of sep s) as [i|] eqn:E; [|done].
    f_equal. apply split_rounds_enough; [done|].
    apply index_of_bound in E.
    assert (0 < length sep)%nat by (destruct sep; [done|simpl; lia]).
    rewrite length_drop. lia.
Qed.

Lemma split_0 sep s : sep ≠ [] → split sep s !! 0%nat = Some (before sep s).
Proof.
  intros Hsep. rewrite split_unfold by done. unfold before.
  by destruct (index_of sep s).
Qed.

Lemma split_1 sep s i :
  sep ≠ [] → index_of sep s = Some i →
  split sep s !! 1%nat = Some (before sep (drop (i + length sep) s)).
Proof.
  intros Hsep E. rewrite split_unfold, E by done. simpl.
  by apply split_0.
Qed.

Lemma split_length sep s :
  sep ≠ [] → contains sep s = true → (2 ≤ length (split sep s))%nat.
Proof.
  intros Hsep H. destruct (index_of sep s) as [i|] eqn:E.
  - rewrite split_unfold, E by done. simpl.
    pose proof (split_0 sep (drop (i + length sep) s) Hsep) as H0.
    apply lookup_lt_Some in H0. lia.
  - apply contains_false in E. congruence.
Qed.

(** [rindex_of] finds an occurrence, and the highest one. *)
Lemma rindex_of_None sub s :
  rindex_of sub s = None → ∀ j, ¬ occurs_at sub s j.
Proof.
  induction s as [|c s IH]; simpl.
  - destruct (startswith sub []) eqn:E; [done|].
    intros _ j H%occurs_at_nil. congruence.
  - destruct (rindex_of sub s) as [k|]; [done|].
    destruct (startswith sub (c :: s)) eqn:E; [done|]. intros _ [|j].
    + rewrite occurs_at_0. congruence.
    + rewrite occurs_at_S. by apply IH.
Qed.

Lemma rindex_of_sound sub s : ∀ i,
  rindex_of sub s = Some i →
  occurs_at sub s i ∧ ∀ j, (i < j)%nat → ¬ occurs_at sub s j.
Proof.
  induction s as [|c s IH]; intros i; simpl.
  - destruct (startswith sub []) eqn:E; [|done].
    intros [= <-]. split; [by apply occurs_at_0|].
    intros j Hj [Hle _]%occurs_at_drop. simpl in Hle. lia.
  - destruct (rindex_of sub s) as [k|] eqn:Ek.
    + intros [= <-]. destruct (IH k eq_refl) as [Hk Hmax].
      split; [by apply occurs_at_S|].
      intros [|j] Hj; [lia|]. rewrite occurs_at_S. apply Hmax. lia.
    + destruct (startswith sub (c :: s)) eqn:E; [|done].
      intros [= <-]. split; [by apply occurs_at_0|].
      intros [|j] Hj; [lia|]. rewrite occurs_at_S. by apply rindex_of_None.
Qed.

Lemma rindex_of_Some sub s i :
  rindex_of sub s = Some i ↔
  occurs_at sub s i ∧ ∀ j, (i < j)%nat → ¬ occurs_at sub s j.
Proof.
  split; [apply rindex_of_sound|]. intros [Hi Hmax].
  destruct (rindex_of sub s) as [k|] eqn:E.
  - apply rindex_of_sound in E as [Hk Hmax']. f_equal.
    destruct (Nat.lt_trichotomy i k) as [Hlt|[->|Hgt]]; [|done|].
    + by destruct (Hmax k Hlt).
    + by destruct (Hmax' i Hgt).
  - by destruct (rindex_of_None sub s E i).
Qed.

Lemma rindex_of_is_Some sub s : contains sub s = true → is_Some (rindex_of sub s).
Proof.
  intros (a & b & Hs)%contains_true.
  destruct (rindex_of sub s) as [k|] eqn:E; [done|].
  destruct (rindex_of_None sub s E (length a)). by exists a, b.
Qed.

(** Occurrences of a single character. *)
Lemma occurs_at_char c s i : occurs_at [c] s i ↔ s !! i = Some c.
Proof.
  split.
  - intros (a & b & -> & <-). by apply list_lookup_middle.
  - intros H. exists (take i s), (drop (S i) s). split.
    + simpl. by rewrite (take_drop_middle s i c H).
    + apply lookup_lt_Some in H. rewrite length_take. lia.
Qed.

Lemma contains_char_false c s : contains [c] s = false ↔ c ∉ s.
Proof.
  rewrite <- not_true_iff_false, contains_true. split.
  - intros H Hin. apply H. apply list_elem_of_split in Hin as (a & b & ->).
    by exists a, b.
  - intros H (a & b & ->). apply H. set_solver.
Qed.

(** The lowest and the highest occurrence of a character that is known
    not to occur before, respectively behind, a given one. *)
Lemma index_of_char_first c a b :
  c ∉ a → index_of [c] (a ++ c :: b) = Some (length a).
Proof.
  intros Hc. apply index_of_Some. split; [by exists a, b|].
  intros j Hj Hocc%occurs_at_char. rewrite lookup_app_l in Hocc by done.
  apply Hc. by eapply list_elem_of_lookup_2.
Qed.

Lemma rindex_of_char_last c a b :
  c ∉ b → rindex_of [c] (a ++ c :: b) = Some (length a).
Proof.
  intros Hc. apply rindex_of_Some. split; [by exists a, b|].
  intros j Hj Hocc%occurs_at_char.
  rewrite lookup_app_r in Hocc by lia.
  destruct (j - length a)%nat as [|k] eqn:E; [lia|]. simpl in Hocc.
  apply Hc. by eapply list_elem_of_lookup_2.
Qed.

(** A slice with bounds in range. *)
Lemma slice_in_range s (i j : nat) :
  (i ≤ j)%nat → (j ≤ length s)%nat →
  slice s (Z.of_nat i) (Z.of_nat j) = take (j - i) (drop i s).
Proof.
  intros Hij Hj. unfold slice, clamp, len.
  replace (Z.of_nat i <? 0) with false by (symmetry; apply Z.ltb_ge; lia).
  replace (Z.of_nat j <? 0) with false by (symmetry; apply Z.ltb_ge; lia).
  rewrite !Z.min_l by lia. rewrite <- Nat2Z.inj_sub, !Nat2Z.id by lia. done.
Qed.

(** A slice whose start lies behind its stop is empty. *)
Lemma slice_empty s (i j : nat) :
  (j ≤ i)%nat → (i ≤ length s)%nat → slice s (Z.of_nat i) (Z.of_nat j) = [].
Proof.
  intros Hij Hi. unfold slice, clamp, len.
  replace (Z.of_nat i <? 0) with false by (symmetry; apply Z.ltb_ge; lia).
  replace (Z.of_nat j <? 0) with false by (symmetry; apply Z.ltb_ge; lia).
  rewrite !Z.min_l by lia.
  replace (Z.to_nat (Z.of_nat j - Z.of_nat i)) with 0%nat by lia. done.
Qed.

(** [strip] removes white space at both ends and nothing else. *)
Lemma lstrip_suffix s : ∃ a, s = a ++ lstrip s.
Proof.
  induction s as [|c s [a IH]]; simpl; [by exists []|].
  destruct (isspace c); [|by exists []].
  exists (c :: a). simpl. by f_equal.
Qed.

Lemma strip_part s : ∃ a b, s = a ++ strip s ++ b.
Proof.
  unfold strip, rstrip.
  destruct (lstrip_suffix (rev s)) as [b Hb].
  destruct (lstrip_suffix (rev (lstrip (rev s)))) as [a Ha].
  exists a, (rev b). rewrite app_assoc, <- Ha, <- rev_app_distr, <- Hb.
  by rewrite rev_involutive.
Qed.

Lemma contains_strip_false sub s :
  contains sub s = false → contains sub (strip s) = false.
Proof.
  destruct (strip_part s) as (a & b & Hs). intros H. rewrite Hs in H.
  by apply contains_false_part in H.
Qed.

Lemma lstrip_app_stop a c t :
  isspace c = false → lstrip (a ++ c :: t) = lstrip a ++ c :: t.
Proof.
  intros Hc. induction a as [|x a IH]; simpl; [by rewrite Hc|].
  by destruct (isspace x).
Qed.

Lemma rstrip_app_stop t c b :
  isspace c = false → rstrip (t ++ c :: b) = t ++ c :: rstrip b.
Proof.
  intros Hc. unfold rstrip.
  rewrite rev_app_distr. simpl. rewrite <- app_assoc. simpl.
  rewrite lstrip_app_stop by done.
  rewrite rev_app_distr. simpl. rewrite rev_involutive, <- app_assoc. done.
Qed.

(** Stripping a text that has non-blank characters [c] and [d] in it, in
    this order, strips what is before [c] and what is behind [d]. *)
Lemma strip_around a c t d b :
  isspace c = false → isspace d = false →
  strip (a ++ c :: t ++ d :: b) = lstrip a ++ c :: t ++ d :: rstrip b.
Proof.
  intros Hc Hd. unfold strip.
  replace (a ++ c :: t ++ d :: b) with ((a ++ c :: t) ++ d :: b)
    by (by rewrite <- app_assoc).
  rewrite rstrip_app_stop by done. rewrite <- app_assoc. simpl.
  by rewrite lstrip_app_stop.
Qed.

Lemma lstrip_elem c s : c ∈ lstrip s → c ∈ s.
Proof. destruct (lstrip_suffix s) as [a Hs]. rewrite Hs at 2. set_solver. Qed.

Lemma rstrip_elem c s : c ∈ rstrip s → c ∈ s.
Proof.
  unfold rstrip. rewrite !list_elem_of_In, <- !in_rev.
  rewrite <- !list_elem_of_In. intros H%lstrip_elem.
  by rewrite list_elem_of_In, <- in_rev, <- list_elem_of_In in H.
Qed.

Lemma occurs_at_take sub s n i : occurs_at sub (take n s) i → occurs_at sub s i.
Proof.
  intros (a & b & Hs & Ha). exists a, (b ++ drop n s). split; [|done].
  rewrite <- (take_drop n s) at 1. rewrite Hs. by rewrite <- !app_assoc.
Qed.

Lemma occurs_at_take_2 sub s n i :
  occurs_at sub s i → (i + length sub ≤ n)%nat → occurs_at sub (take n s) i.
Proof.
  intros (a & b & -> & <-) Hn.
  exists a, (take (n - length a - length sub) b). split; [|done].
  rewrite take_app_ge by lia. f_equal.
  by rewrite take_app_ge by lia.
Qed.

End StringFacts.

(** ** The retry controller *)

Section RetryFacts.

Variable endpoint : nat → GenerationRequest → api_reply.
Variables (self : GeminiClient) (prompt : str) (kw : kwargs).

Let req := request_of self prompt kw.

Lemma timeline_app l1 l2 : timeline (l1 ++ l2) = timeline l1 ++ timeline l2.
Proof. apply List.filter_app. Qed.

Lemma sleeps_app l1 l2 : sleeps (l1 ++ l2) = sleeps l1 ++ sleeps l2.
Proof. apply omap_app. Qed.

Lemma requests_app l1 l2 : requests (l1 ++ l2) = requests l1 ++ requests l2.
Proof. apply omap_app. Qed.

Lemma sleeps_timeline l : sleeps (timeline l) = sleeps l.
Proof.
  induction l as [|[?|?|?] l IH]; simpl; try done; by f_equal.
Qed.

Lemma requests_timeline l : requests (timeline l) = requests l.
Proof.
  induction l as [|[?|?|?] l IH]; simpl; try done; by f_equal.
Qed.

(** [generate] on a request the endpoint answers. *)
Lemma generate_text w text :
  endpoint (calls w) req = ApiText text →
  generate endpoint self prompt kw w =
    (inr text, {| environ := environ w; dotenv_file := dotenv_file w;
                  calls := S (calls w); log := log w ++ [Request req] |}).
Proof.
  intros H. unfold generate, bind, generate_content. fold req. by rewrite H.
Qed.

(** [generate] on a request that fails: one request, printed lines only
    after it, and the uniform exception. *)
Lemma generate_raise w type_name error_str :
  endpoint (calls w) req = ApiRaise type_name error_str →
  ∃ w', generate endpoint self prompt kw w = (inl (generation_failed error_str), w')
        ∧ calls w' = S (calls w)
        ∧ environ w' = environ w
        ∧ timeline (log w') = timeline (log w) ++ [Request req]
        ∧ ∃ hints, log w' = log w ++ Request req :: Print (ApiError type_name error_str)
                                      :: (Print <$> hints)
                   ∧ hints = match error_hint error_str with
                             | HintQuota => [QuotaExceeded]
                             | HintNotFound => [ModelNotFound (model_name self)]
                             | NoHint => []
                             end.
Proof.
  intros H. unfold generate, bind, generate_content. fold req. rewrite H.
  destruct (error_hint error_str); simpl; eexists; (split; [reflexivity|]);
    simpl; repeat split; rewrite ?timeline_app; simpl;
    try (rewrite <- ?app_assoc; simpl; rewrite ?app_nil_r; done);
    try (eexists; split; [|reflexivity]; rewrite <- ?app_assoc; done).
Qed.

(** One turn of the loop on a request the endpoint answers. *)
Lemma retry_loop_turn_text max_retries todo attempt w text :
  endpoint (calls w) req = ApiText text →
  ∃ w', retry_loop endpoint self prompt max_retries kw (S todo) attempt w =
          (inr (Some text), w').
Proof.
  intros E. simpl. unfold try_except, bind.
  rewrite (generate_text w text E). by eexists.
Qed.

(** One turn of the loop on a request that fails while turns remain: the
    loop goes on with the next attempt, one request later. *)
Lemma retry_loop_turn_retry max_retries todo attempt w :
  is_text (endpoint (calls w) req) = false →
  attempt < max_retries - 1 →
  ∃ w1, retry_loop endpoint self prompt max_retries kw (S todo) attempt w =
          retry_loop endpoint self prompt max_retries kw todo (attempt + 1) w1
        ∧ calls w1 = S (calls w).
Proof.
  intros Hf Hlt.
  destruct (endpoint (calls w) req) as [|ty err] eqn:E; [done|].
  destruct (generate_raise w ty err E) as (w1 & Hg & Hc & _).
  simpl. unfold try_except, bind at 1. rewrite Hg.
  replace (attempt <? max_retries - 1) with true by (symmetry; apply Z.ltb_lt; lia).
  unfold bind, print, sleep, emit. simpl.
  eexists. split; [reflexivity|done].
Qed.

(** The requests and sleeps of the loop follow [plan], whatever the
    endpoint answers or raises. *)
Lemma retry_loop_timeline max_retries todo : ∀ attempt w,
  timeline (log (retry_loop endpoint self prompt max_retries kw todo attempt w).2) =
  timeline (log w) ++
  plan (λ n, is_text (endpoint n req)) req max_retries todo attempt (calls w).
Proof.
  induction todo as [|todo IH]; intros attempt w; simpl.
  - by rewrite app_nil_r.
  - unfold try_except, bind at 1.
    destruct (endpoint (calls w) req) as [text|ty err] eqn:E.
    + rewrite (generate_text w text E). simpl. by rewrite timeline_app.
    + destruct (generate_raise w ty err E) as (w' & -> & Hc & _ & Ht & _).
      destruct (attempt <? max_retries - 1); simpl.
      * unfold bind, print, sleep, emit. simpl. rewrite IH. simpl.
        rewrite !timeline_app, Ht, Hc. simpl. by rewrite <- !app_assoc.
      * unfold bind, print, emit, raise. simpl.
        rewrite !timeline_app, Ht. simpl. by rewrite app_nil_r.
Qed.

(** Every request of the loop reaches the endpoint once. *)
Lemma retry_loop_calls max_retries todo : ∀ attempt w,
  calls (retry_loop endpoint self prompt max_retries kw todo attempt w).2 =
  (calls w + length (requests
     (plan (λ n, is_text (endpoint n req)) req max_retries todo attempt (calls w))))%nat.
Proof.
  induction todo as [|todo IH]; intros attempt w; simpl.
  - lia.
  - unfold try_except, bind at 1.
    destruct (endpoint (calls w) req) as [text|ty err] eqn:E.
    + rewrite (generate_text w text E). simpl. lia.
    + destruct (generate_raise w ty err E) as (w' & -> & Hc & _ & Ht & _).
      destruct (attempt <? max_retries - 1); simpl.
      * unfold bind, print, sleep, emit. simpl. rewrite IH. simpl. rewrite Hc. lia.
      * unfold bind, print, emit, raise. simpl. lia.
Qed.

(** With every request failing, the loop started with [todo + 1] turns left
    ends in its last turn, by raising what [generate] raised there. *)
Lemma retry_loop_exhausted max_retries todo : ∀ attempt w,
  (∀ n, (calls w ≤ n)%nat → is_text (endpoint n req) = false) →
  attempt + Z.of_nat (S todo) = max_retries →
  ∃ w_last w_gen w' e,
    generate endpoint self prompt kw w_last = (inl e, w_gen)
    ∧ calls w_last = (calls w + todo)%nat
    ∧ retry_loop endpoint self prompt max_retries kw (S todo) attempt w = (inl e, w')
    ∧ calls w' = (calls w + S todo)%nat
    ∧ (∀ type_name error_str,
         endpoint (calls w + todo)%nat req = ApiRaise type_name error_str →
         e = generation_failed error_str).
Proof.
  induction todo as [|todo IH]; intros attempt w Hfail Hsum.
  - pose proof (Hfail (calls w) ltac:(lia)) as Hf.
    destruct (endpoint (calls w) req) as [text|ty err] eqn:E; [done|].
    destruct (generate_raise w ty err E) as (w1 & Hg & Hc & _).
    exists w, w1. simpl. unfold try_except, bind at 1. rewrite Hg.
    replace (attempt <? max_retries - 1) with false
      by (symmetry; apply Z.ltb_ge; lia).
    unfold bind, print, emit, raise. simpl.
    eexists _, _. split_and!; [done|lia|done|simpl; lia|].
    intros ty' err'. rewrite Nat.add_0_r, E. by intros [= _ ->].
  - pose proof (Hfail (calls w) ltac:(lia)) as Hf.
    destruct (endpoint (calls w) req) as [text|ty err] eqn:E; [done|].
    destruct (generate_raise w ty err E) as (w1 & Hg & Hc & _).
    change (retry_loop endpoint self prompt max_retries kw (S (S todo)) attempt w)
      with (try_except
              (text <- generate endpoint self prompt kw ;; ret (Some text))
              (λ e, if attempt <? max_retries - 1 then
                      let wait_time := 2 ^ attempt in
                      print (AttemptFailed (attempt + 1) e wait_time) ;;
                      sleep wait_time ;;
                      retry_loop endpoint self prompt max_retries kw (S todo) (attempt + 1)
                    else print (AllFailed max_retries e) ;; raise e) w).
    unfold try_except, bind at 1. rewrite Hg.
    replace (attempt <? max_retries - 1) with true
      by (symmetry; apply Z.ltb_lt; lia).
    cbv zeta. unfold bind at 1, print at 1, emit at 1.
    unfold bind at 1, sleep at 1, emit at 1.
    match goal with |- context [retry_loop _ _ _ _ _ _ _ ?w2] =>
      destruct (IH (attempt + 1) w2) as (wl & wg & w' & e & H1 & H2 & H3 & H4 & H5)
    end.
    + simpl. intros n Hn. apply Hfail. lia.
    + lia.
    + exists wl, wg, w', e. simpl in *. split_and!; [done|lia|done|lia|].
      intros ty' err' E'. apply (H5 ty' err'). rewrite <- E'. f_equal. lia.
Qed.

End RetryFacts.

(** The plan when every request fails: as many requests as turns, and
    between them the sleeps [2 ^ attempt], [2 ^ (attempt + 1)], ... *)
Lemma plan_all_fail ok req max_retries todo : ∀ attempt n,
  (∀ m, (n ≤ m)%nat → ok m = false) →
  attempt + Z.of_nat todo = max_retries →
  requests (plan ok req max_retries todo attempt n) = replicate todo req
  ∧ sleeps (plan ok req max_retries todo attempt n) =
      (λ a, 2 ^ a) <$> seqZ attempt (Z.of_nat todo - 1).
Proof.
  induction todo as [|todo IH]; intros attempt n Hok Hsum; [done|].
  simpl plan. rewrite (Hok n) by lia.
  destruct (attempt <? max_retries - 1) eqn:E.
  - apply Z.ltb_lt in E.
    destruct (IH (attempt + 1) (S n)) as [IH1 IH2]; [intros; apply Hok; lia|lia|].
    split; simpl; [by rewrite IH1|].
    rewrite IH2, (seqZ_cons attempt) by lia. simpl.
    do 3 f_equal; lia.
  - apply Z.ltb_ge in E. assert (todo = 0%nat) as -> by lia. done.
Qed.

(** The plan depends on the endpoint through [ok] only. *)
Lemma plan_ext ok1 ok2 req max_retries todo : ∀ attempt n,
  (∀ m, ok1 m = ok2 m) →
  plan ok1 req max_retries todo attempt n = plan ok2 req max_retries todo attempt n.
Proof.
  induction todo as [|todo IH]; intros attempt n H; [done|].
  simpl. by rewrite H, IH.
Qed.

(** C2: a call that fails on its first two attempts and succeeds on the
    third, under [max_retries = 3] (given or by default), returns the text
    of the third attempt; towards the endpoint and the clock it does
    request, sleep [2^0], request, sleep [2^1], request, and nothing else. *)
Theorem retry_third_attempt_succeeds endpoint self prompt kw max_retries w text :
  let req := request_of self prompt kw in
  max_retries = Some 3 ∨ max_retries = None →
  is_text (endpoint (calls w) req) = false →
  is_text (endpoint (S (calls w)) req) = false →
  endpoint (S (S (calls w))) req = ApiText text →
  ∃ w', generate_with_retry endpoint self prompt max_retries kw w = (inr (Some text), w')
        ∧ timeline (log w') =
            timeline (log w) ++
            [Request req; Sleep (2 ^ 0); Request req; Sleep (2 ^ 1); Request req]
        ∧ sleeps (log w') = sleeps (log w) ++ [2 ^ 0; 2 ^ 1]
        ∧ calls w' = (calls w + 3)%nat.
Proof.
  intros req Hmr H1 H2 H3.
  assert (default 3 max_retries = 3) as Hd by (by destruct Hmr as [-> | ->]).
  pose proof (retry_loop_timeline endpoint self prompt kw 3 3 0 w) as Ht.
  pose proof (retry_loop_calls endpoint self prompt kw 3 3 0 w) as Hc.
  assert (generate_with_retry endpoint self prompt max_retries kw w =
          retry_loop endpoint self prompt 3 kw 3 0 w) as ->
    by (unfold generate_with_retry; by rewrite Hd).
  destruct (retry_loop endpoint self prompt 3 kw 3 0 w) as [r w'] eqn:Hr.
  fold req in Ht, Hc. simpl plan in Ht, Hc.
  rewrite H1, H2, H3 in Ht, Hc. simpl in Ht, Hc.
  exists w'. split_and!; [|done| |lia].
  - clear Ht Hc. revert Hr.
    destruct (retry_loop_turn_retry endpoint self prompt kw 3 2 0 w H1)
      as (w1 & -> & Hc1); [lia|].
    rewrite <- Hc1 in H2.
    destruct (retry_loop_turn_retry endpoint self prompt kw 3 1 (0 + 1) w1 H2)
      as (w2 & -> & Hc2); [lia|].
    rewrite <- Hc1, <- Hc2 in H3.
    destruct (retry_loop_turn_text endpoint self prompt kw 3 0 (0 + 1 + 1) w2 text H3)
      as (w3 & ->).
    by intros [= <- _].
  - rewrite <- (sleeps_timeline (log w')), Ht, sleeps_app, sleeps_timeline. done.
Qed.

Lemma retry_third_attempt_succeeds_witness :
  ∃ w', generate_with_retry flaky_endpoint example_client (lit "plan") None no_kwargs
          fresh_world = (inr (Some (lit "{}")), w')
        ∧ sleeps (log w') = [1; 2].
Proof.
  destruct (retry_third_attempt_succeeds flaky_endpoint example_client (lit "plan")
              no_kwargs None fresh_world (lit "{}"))
    as (w' & H & _ & Hs & _); [by right|reflexivity|reflexivity|reflexivity|].
  exists w'. split; [exact H|exact Hs].
Defined.

(** C3: when every request fails, [generate_with_retry] with
    [max_retries = N] sends exactly [N] requests ([0] for a negative [N])
    and, there being a last attempt ([1 <= N]), raises the very exception
    [generate] raised on it: the uniform failure built from the error text
    of the [N]-th request. *)
Theorem retry_exhaustion endpoint self prompt kw w N :
  let req := request_of self prompt kw in
  let run := generate_with_retry endpoint self prompt (Some N) kw w in
  (∀ n, (calls w ≤ n)%nat → is_text (endpoint n req) = false) →
  calls run.2 = (calls w + Z.to_nat N)%nat
  ∧ requests (timeline (log run.2)) =
      requests (timeline (log w)) ++ replicate (Z.to_nat N) req
  ∧ (1 ≤ N →
     ∃ w_last w_gen e,
       calls w_last = (calls w + Z.to_nat N - 1)%nat
       ∧ generate endpoint self prompt kw w_last = (inl e, w_gen)
       ∧ run.1 = inl e
       ∧ ∀ type_name error_str,
           endpoint (calls w + Z.to_nat N - 1)%nat req = ApiRaise type_name error_str →
           e = generation_failed error_str).
Proof.
  intros req run Hfail. subst run. unfold generate_with_retry. simpl default.
  assert (requests (plan (λ n, is_text (endpoint n req)) req N (Z.to_nat N) 0 (calls w))
          = replicate (Z.to_nat N) req) as Hreq.
  { destruct (decide (N < 0)) as [Hneg|Hpos].
    - by replace (Z.to_nat N) with 0%nat by lia.
    - apply plan_all_fail; [done|lia]. }
  split_and!.
  - rewrite retry_loop_calls. fold req. by rewrite Hreq, length_replicate.
  - rewrite retry_loop_timeline. fold req. by rewrite requests_app, Hreq.
  - intros HN. destruct (Z.to_nat N) as [|todo] eqn:EN; [lia|].
    destruct (retry_loop_exhausted endpoint self prompt kw N todo 0 w)
      as (w_last & w_gen & w' & e & H1 & H2 & H3 & H4 & H5); [done|lia|].
    exists w_last, w_gen, e.
    replace (calls w + S todo - 1)%nat with (calls w + todo)%nat by lia.
    split_and!; [done|done|by rewrite H3|done].
Qed.

Lemma retry_exhaustion_witness :
  let run := generate_with_retry unauthorized_endpoint example_client (lit "plan")
               (Some 4) no_kwargs fresh_world in
  calls run.2 = 4%nat
  ∧ run.1 = inl (generation_failed (lit "401 UNAUTHORIZED")).
Proof.
  destruct (retry_exhaustion unauthorized_endpoint example_client (lit "plan")
              no_kwargs fresh_world 4) as (Hc & _ & Hr); [done|].
  destruct Hr as (w_last & w_gen & e & _ & _ & He & Hmsg); [lia|].
  split; [exact Hc|].
  rewrite He. f_equal. by apply (Hmsg (lit "ClientError")).
Defined.

(** C10: with [max_retries <= 0] the loop body never runs: no request, no
    sleep, nothing printed, no exception, and the call returns [None]. *)
Theorem retry_without_attempts endpoint self prompt kw w max_retries :
  max_retries ≤ 0 →
  generate_with_retry endpoint self prompt (Some max_retries) kw w = (inr None, w).
Proof.
  intros H. unfold generate_with_retry. simpl default.
  by replace (Z.to_nat max_retries) with 0%nat by lia.
Qed.

Lemma retry_without_attempts_witness :
  generate_with_retry unavailable_endpoint example_client (lit "plan") (Some 0)
    no_kwargs fresh_world = (inr None, fresh_world)
  ∧ generate_with_retry unavailable_endpoint example_client (lit "plan") (Some (-2))
      no_kwargs fresh_world = (inr None, fresh_world).
Proof.
  split; apply retry_without_attempts; lia.
Defined.

(** C9: the loop does not look at what failed.  Two endpoints that fail on
    the same requests, with whatever errors, are sent the same requests
    separated by the same sleeps; and against an endpoint that always
    fails, of whatever class, [max_retries = N] sends [N] requests with the
    sleeps [2^0, 2^1, ..., 2^(N-2)] between them. *)
Theorem retry_blind_to_classification ep1 ep2 self prompt kw max_retries w1 w2 :
  let req := request_of self prompt kw in
  let run1 := generate_with_retry ep1 self prompt max_retries kw w1 in
  let run2 := generate_with_retry ep2 self prompt max_retries kw w2 in
  let N := default 3 max_retries in
  calls w1 = calls w2 →
  (∀ n, is_text (ep1 n req) = is_text (ep2 n req)) →
  (∃ T, timeline (log run1.2) = timeline (log w1) ++ T
        ∧ timeline (log run2.2) = timeline (log w2) ++ T)
  ∧ ((∀ n, is_text (ep1 n req) = false) → 0 ≤ N →
     sleeps (log run1.2) = sleeps (log w1) ++ ((λ a, 2 ^ a) <$> seqZ 0 (N - 1))
     ∧ requests (log run1.2) = requests (log w1) ++ replicate (Z.to_nat N) req).
Proof.
  intros req run1 run2 N Hc Hsame. subst run1 run2. unfold generate_with_retry.
  fold N. split.
  - eexists. rewrite !retry_loop_timeline. fold req. split; [reflexivity|].
    rewrite Hc. f_equal. by apply plan_ext.
  - intros Hfail HN.
    destruct (plan_all_fail (λ n, is_text (ep1 n req)) req N (Z.to_nat N) 0 (calls w1))
      as [Hreq Hsl]; [done|lia|].
    rewrite <- (sleeps_timeline (log _)), <- (requests_timeline (log _)).
    rewrite retry_loop_timeline. fold req.
    rewrite sleeps_app, requests_app, sleeps_timeline, requests_timeline, Hsl, Hreq.
    by rewrite Z2Nat.id by lia.
Qed.

Lemma retry_blind_to_classification_witness :
  let run1 := generate_with_retry unauthorized_endpoint example_client (lit "plan")
                (Some 4) no_kwargs fresh_world in
  let run2 := generate_with_retry unavailable_endpoint example_client (lit "plan")
                (Some 4) no_kwargs fresh_world in
  timeline (log run1.2) = timeline (log run2.2)
  ∧ sleeps (log run1.2) = [1; 2; 4].
Proof.
  destruct (retry_blind_to_classification unauthorized_endpoint unavailable_endpoint
              example_client (lit "plan") no_kwargs (Some 4) fresh_world fresh_world)
    as [(T & H1 & H2) Hs]; [done|done|].
  split.
  - by rewrite H1, H2.
  - destruct Hs as [Hs _]; [done|simpl; lia|]. exact Hs.
Defined.

(** ** The client: construction and failure reporting *)

Lemma GeminiClient_init_missing model_name w :
  (environ w ∪ dotenv_file w) !! "GOOGLE_API_KEY" = None
  ∨ (environ w ∪ dotenv_file w) !! "GOOGLE_API_KEY" = Some [] →
  GeminiClient_init model_name w =
    (inl (ValueError missing_key_message),
     {| environ := environ w ∪ dotenv_file w; dotenv_file := dotenv_file w;
        calls := calls w; log := log w |}).
Proof.
  intros H. unfold GeminiClient_init, bind, load_dotenv, getenv.
  cbn [environ dotenv_file calls log].
  by destruct H as [-> | ->].
Qed.

(** C5: without a credential (the variable unset, or set to the empty
    string, in the environment and the [.env] file alike) the constructor
    raises [ValueError] at once: no request has been sent, nothing slept,
    nothing printed; and a tab that constructs the client ends in that
    failure without a single request or sleep, so nothing is retried. *)
Theorem missing_credential_is_fatal endpoint model_name w :
  (environ w ∪ dotenv_file w) !! "GOOGLE_API_KEY" = None
  ∨ (environ w ∪ dotenv_file w) !! "GOOGLE_API_KEY" = Some [] →
  (∃ w', GeminiClient_init model_name w = (inl (ValueError missing_key_message), w')
         ∧ calls w' = calls w ∧ log w' = log w)
  ∧ ∀ sh prompt temperature,
      ∃ w', generate_and_extract endpoint sh prompt temperature w =
              (inr (Failed (ValueError missing_key_message)), w')
            ∧ calls w' = calls w ∧ log w' = log w.
Proof.
  intros H. split.
  - eexists. by rewrite (GeminiClient_init_missing _ _ H).
  - intros sh prompt temperature.
    unfold generate_and_extract, try_except, bind at 1.
    rewrite (GeminiClient_init_missing _ _ H). by eexists.
Qed.

Lemma missing_credential_is_fatal_witness :
  ∃ w', career_path_tab unavailable_endpoint (lit "plan") world_without_key =
          (inr (Failed (ValueError missing_key_message)), w')
        ∧ calls w' = 0%nat ∧ log w' = [].
Proof.
  destruct (missing_credential_is_fatal unavailable_endpoint default_model_name
              world_without_key) as [_ H]; [by left|].
  exact (H Object (lit "plan") (5 # 10)%Q).
Defined.

(** ** The decoder always comes to an end *)

Module JsonFacts.
Import Json.

Lemma advances_progresses {A} p (r : scan A) : advances p r → progresses p r.
Proof. by destruct r. Qed.








(** The three scanning functions, one round unfolded. *)
Lemma scan_once_S s rounds idx :
  scan_once s (S rounds) idx =
    match s !! idx with
    | None => Stop idx
    | Some nextchar =>
        if Ascii.eqb nextchar dquote then
          match scanstring s (idx + 1) with
          | Done u stop => Done (Str u) stop
          | Stop i => Stop i
          | Fail msg pos => Fail msg pos
          | Exhausted => Exhausted
          end
        else if Ascii.eqb nextchar "{" then
          JSONObject s (object_loop s rounds) (idx + 1)
        else if Ascii.eqb nextchar "[" then
          JSONArray s (array_loop s rounds) (idx + 1)
        else if Ascii.eqb nextchar "n" && word_at s idx "null" then
          Done Null (idx + 4)
        else if Ascii.eqb nextchar "t" && word_at s idx "true" then
          Done (Bool true) (idx + 4)
        else if Ascii.eqb nextchar "f" && word_at s idx "false" then
          Done (Bool false) (idx + 5)
        else
          match scan_number s idx with
          | Some (res, stop) => Done res stop
          | None =>
              if Ascii.eqb nextchar "N" && word_at s idx "NaN" then
                Done (Float (lit "NaN")) (idx + 3)
              else if Ascii.eqb nextchar "I" && word_at s idx "Infinity" then
                Done (Float (lit "Infinity")) (idx + 8)
              else if Ascii.eqb nextchar "-" && word_at s idx "-Infinity" then
                Done (Float (lit "-Infinity")) (idx + 9)
              else Stop idx
          end
    end.
Proof. reflexivity. Qed.

Lemma object_loop_S s rounds pairs stop :
  object_loop s (S rounds) pairs stop =
    match scanstring s stop with
    | Stop i => Stop i
    | Fail msg pos => Fail msg pos
    | Exhausted => Exhausted
    | Done key stop =>
        let stop := if char_is s stop ":" then stop else ws_end s stop in
        if negb (char_is s stop ":") then Fail ExpectingColon stop
        else
          let stop := skip_ws_fast s (stop + 1) in
          match scan_once s rounds stop with
          | Stop i => Fail ExpectingValue i
          | Fail msg pos => Fail msg pos
          | Exhausted => Exhausted
          | Done v stop =>
              let pairs := pairs ++ [(key, v)] in
              let '(stop, nextchar) :=
                match s !! stop with
                | None => (stop, None)
                | Some c =>
                    if is_ws c then
                      let e := ws_end s (stop + 1) in (e, s !! e)
                    else (stop, Some c)
                end in
              if bool_decide (nextchar = Some "}"%char) then
                Done (Dict (dict pairs)) (stop + 1)
              else if negb (bool_decide (nextchar = Some ","%char)) then
                Fail ExpectingComma stop
              else
                let stop := ws_end s (stop + 1) in
                if negb (char_is s stop dquote) then Fail ExpectingPropertyName stop
                else object_loop s rounds pairs (stop + 1)%nat
          end
    end.
Proof. reflexivity. Qed.

Lemma array_loop_S s rounds values stop :
  array_loop s (S rounds) values stop =
    match scan_once s rounds stop with
    | Stop i => Fail ExpectingValue i
    | Fail msg pos => Fail msg pos
    | Exhausted => Exhausted
    | Done v stop =>
        let values := values ++ [v] in
        let stop := if ws_or_end s stop then ws_end s (stop + 1) else stop in
        if char_is s stop "]" then Done (List values) (stop + 1)
        else if negb (char_is s stop ",") then Fail ExpectingComma stop
        else array_loop s rounds values (skip_ws_fast s (stop + 1))
    end.
Proof. reflexivity. Qed.








(** Nor does it end in a [StopIteration]. *)
Lemma decode_never_stops s rounds i : decode s rounds ≠ Stop i.
Proof.
  unfold decode. destruct (scan_once s rounds (ws_end s 0)); try done.
  by case_bool_decide.
Qed.

End JsonFacts.

(** ** The structured-output extractor *)

Section ExtractorFacts.

Implicit Types (s response : str) (sh : shape).

Lemma opening_char sh : opening sh = [open_char sh].
Proof. by destruct sh. Qed.

Lemma closing_char sh : closing sh = [close_char sh].
Proof. by destruct sh. Qed.

Lemma open_char_not_space sh : isspace (open_char sh) = false.
Proof. by destruct sh. Qed.

Lemma close_char_not_space sh : isspace (close_char sh) = false.
Proof. by destruct sh. Qed.

Lemma fence_not_nil : fence ≠ [].
Proof. done. Qed.

Lemma json_fence_not_nil : json_fence ≠ [].
Proof. done. Qed.

Lemma extract_isolate sh response s :
  isolate sh response = inr s → extract sh response = outcome_of (json_loads s).
Proof. unfold extract. intros ->. by destruct (json_loads s). Qed.

Lemma isolate_unfence sh response s :
  unfence response = inr s → isolate sh response = inr (between_delimiters sh s).
Proof. unfold isolate. by intros ->. Qed.

(** The three branches of the fence stage. *)
Lemma unfence_tagged response i :
  index_of json_fence (strip response) = Some i →
  unfence response =
    inr (strip (before fence (before json_fence
                  (drop (i + length json_fence) (strip response))))).
Proof.
  intros E. unfold unfence.
  assert (contains json_fence (strip response) = true) as ->.
  { apply not_false_iff_true. rewrite contains_false. congruence. }
  unfold item. rewrite (split_1 _ _ i json_fence_not_nil E).
  by rewrite (split_0 _ _ fence_not_nil).
Qed.

Lemma unfence_untagged response i :
  contains json_fence (strip response) = false →
  index_of fence (strip response) = Some i →
  unfence response =
    inr (strip (before fence (drop (i + length fence) (strip response)))).
Proof.
  intros H E. unfold unfence. rewrite H.
  assert (contains fence (strip response) = true) as Hc.
  { apply not_false_iff_true. rewrite contains_false. congruence. }
  rewrite Hc. pose proof (split_length _ _ fence_not_nil Hc) as Hlen.
  replace (2 <=? length (split fence (strip response)))%nat with true
    by (symmetry; by apply Nat.leb_le).
  unfold item. by rewrite (split_1 _ _ i fence_not_nil E).
Qed.

Lemma unfence_plain response :
  contains fence (strip response) = false → unfence response = inr (strip response).
Proof.
  intros H. unfold unfence. rewrite H.
  by rewrite (contains_false_longer fence json_fence _ eq_refl H).
Qed.


(** Up to the closing fence, the text before the next tagged fence is the
    text itself, unless that tagged fence overlaps the closing fence. *)
Lemma before_fence_before_json_fence rest k :
  index_of fence rest = Some k →
  (∀ j, index_of json_fence rest = Some j → j = k ∨ (k + 3 ≤ j)%nat) →
  before fence (before json_fence rest) = take k rest.
Proof.
  intros Ek Hj. unfold before at 2.
  destruct (index_of json_fence rest) as [j|] eqn:Ej.
  - apply index_of_sound in Ek as [Hk Hmin].
    destruct (Hj j eq_refl) as [->|Hle].
    + unfold before.
      destruct (index_of fence (take k rest)) as [k'|] eqn:E; [|done].
      apply index_of_sound in E as [Hk' _].
      pose proof Hk' as (a & b & Ht & Ha).
      assert (k' + 3 ≤ k)%nat.
      { apply (f_equal length) in Ht. rewrite !length_app, length_take in Ht.
        change (length fence) with 3%nat in Ht. lia. }
      destruct (Hmin k' ltac:(lia)). by eapply occurs_at_take.
    + unfold before.
      assert (index_of fence (take j rest) = Some k) as ->.
      { apply index_of_Some. split; [by apply occurs_at_take_2|].
        intros k' Hlt Hocc. apply (Hmin k' Hlt). by eapply occurs_at_take. }
      rewrite take_take. f_equal. lia.
  - unfold before. by rewrite Ek.
Qed.

(** The delimiter stage on a text that begins with the opening and ends
    with the closing character, nothing of the kind before and behind. *)
Lemma between_delimiters_span sh a mid b :
  open_char sh ∉ a → close_char sh ∉ b →
  between_delimiters sh (a ++ open_char sh :: mid ++ close_char sh :: b) =
  open_char sh :: mid ++ [close_char sh].
Proof.
  intros Ha Hb. unfold between_delimiters. rewrite opening_char, closing_char.
  set (s := a ++ open_char sh :: mid ++ close_char sh :: b).
  assert (index_of [open_char sh] s = Some (length a)) as Hi
    by (by apply index_of_char_first).
  assert (rindex_of [close_char sh] s = Some (length a + S (length mid))%nat) as Hj.
  { unfold s. replace (a ++ open_char sh :: mid ++ close_char sh :: b)
      with ((a ++ open_char sh :: mid) ++ close_char sh :: b)
      by (by rewrite <- app_assoc).
    rewrite (rindex_of_char_last _ _ _ Hb). f_equal.
    rewrite length_app. simpl. lia. }
  assert (contains [open_char sh] s = true) as ->.
  { apply contains_true. by exists a, (mid ++ close_char sh :: b). }
  assert (contains [close_char sh] s = true) as ->.
  { apply contains_true. exists (a ++ open_char sh :: mid), b.
    unfold s. by rewrite <- app_assoc. }
  simpl. unfold find, rfind. rewrite Hi, Hj.
  replace (Z.of_nat (length a + S (length mid)) + 1)
    with (Z.of_nat (length a + S (S (length mid)))) by lia.
  rewrite slice_in_range.
  - unfold s. rewrite drop_app_length.
    replace (length a + S (S (length mid)) - length a)%nat
      with (S (length mid + 1)) by lia.
    simpl. f_equal. rewrite take_app_ge by lia.
    f_equal. by replace (length mid + 1 - length mid)%nat with 1%nat by lia.
  - lia.
  - unfold s. rewrite !length_app. simpl. rewrite !length_app. simpl. lia.
Qed.

End ExtractorFacts.

(** C6, as amended: in a reply with a JSON-tagged block (the closing fence
    not overlapped by a further tag), extraction isolates the stripped
    content between the first opening fence and its closing fence, whatever
    surrounds the block; the delimiter scan then narrows it to the span from
    its first opening to its last closing delimiter of the expected shape
    before it is parsed, so the result is the parsed content of the block
    when that content begins and ends with these delimiters. *)
Theorem tagged_block_extraction sh response i k :
  let reply := strip response in
  let rest := drop (i + length json_fence) reply in
  index_of json_fence reply = Some i →
  index_of fence rest = Some k →
  (∀ j, index_of json_fence rest = Some j → j = k ∨ (k + 3 ≤ j)%nat) →
  ∃ block,
    first_tagged_block reply = Some block
    ∧ unfence response = inr (strip block)
    ∧ extract sh response = outcome_of (json_loads (between_delimiters sh (strip block)))
    ∧ ∀ mid, strip block = open_char sh :: mid ++ [close_char sh] →
             extract sh response = outcome_of (json_loads (strip block)).
Proof.
  intros reply rest Ei Ek Hj. exists (take k rest).
  assert (unfence response = inr (strip (take k rest))) as Hu.
  { rewrite (unfence_tagged response i Ei). fold reply rest.
    by rewrite (before_fence_before_json_fence rest k Ek Hj). }
  split_and!.
  - unfold first_tagged_block. rewrite Ei. cbn [mbind option_bind].
    fold rest. by rewrite Ek.
  - done.
  - apply extract_isolate. by apply isolate_unfence.
  - intros mid Hmid. rewrite (extract_isolate sh response _ (isolate_unfence sh _ _ Hu)).
    rewrite Hmid. f_equal. f_equal.
    apply (between_delimiters_span sh [] mid []); apply not_elem_of_nil.
Qed.

Lemma tagged_block_extraction_witness :
  extract Object tagged_reply =
  Parsed (Json.Dict [(Json.ulit "title", Json.Str (Json.ulit "X"));
                     (Json.ulit "total_credits", Json.Int 12)]).
Proof.
  destruct (tagged_block_extraction Object tagged_reply 13 34)
    as (block & Hb & _ & _ & H);
    [vm_compute; reflexivity|vm_compute; reflexivity|vm_compute; discriminate|].
  vm_compute in Hb. injection Hb as <-.
  rewrite (H (reply_text "'title':'X','total_credits':12"));
    vm_compute; reflexivity.
Defined.

(** C6, as stated, fails: the career-path tab, given a tagged block that
    holds an array, does not return the array the block parses to but the
    object inside it. *)
Lemma tagged_block_not_parsed_exactly :
  let response := reply_text "Plan: ```json [{'title':'X'}] ``` Enjoy." in
  first_tagged_block (strip response) = Some (reply_text " [{'title':'X'}] ")
  ∧ json_loads (reply_text " [{'title':'X'}] ") =
      inr (Json.List [Json.Dict [(Json.ulit "title", Json.Str (Json.ulit "X"))]])
  ∧ extract Object response =
      Parsed (Json.Dict [(Json.ulit "title", Json.Str (Json.ulit "X"))]).
Proof. vm_compute. done. Qed.

(** C7: in a reply without a JSON-tagged fence but with at least two
    fences, extraction takes the content of the first fenced segment: the
    text between the first fence and the second, stripped, is what goes on
    to the delimiter scan and the parser. *)
Theorem untagged_block_extraction sh response i k :
  let reply := strip response in
  let rest := drop (i + length fence) reply in
  contains json_fence reply = false →
  index_of fence reply = Some i →
  index_of fence rest = Some k →
  unfence response = inr (strip (take k rest))
  ∧ isolate sh response = inr (between_delimiters sh (strip (take k rest)))
  ∧ extract sh response =
      outcome_of (json_loads (between_delimiters sh (strip (take k rest)))).
Proof.
  intros reply rest Hj Ei Ek.
  assert (unfence response = inr (strip (take k rest))) as Hu.
  { rewrite (unfence_untagged response i Hj Ei). fold reply rest.
    unfold before. by rewrite Ek. }
  split_and!; [done|by apply isolate_unfence|].
  apply extract_isolate. by apply isolate_unfence.
Qed.

Lemma untagged_block_extraction_witness :
  unfence untagged_reply = inr (reply_text "[{'code':'C1','credits':3}]")
  ∧ extract Array untagged_reply =
      Parsed (Json.List [Json.Dict [(Json.ulit "code", Json.Str (Json.ulit "C1"));
                                    (Json.ulit "credits", Json.Int 3)]]).
Proof.
  destruct (untagged_block_extraction Array untagged_reply 6 29)
    as (Hu & _ & He);
    [vm_compute; reflexivity|vm_compute; reflexivity|vm_compute; reflexivity|].
  split.
  - rewrite Hu. vm_compute. reflexivity.
  - rewrite He. vm_compute. reflexivity.
Defined.

(** C8: in a reply without fences, the text that goes to the parser is the
    slice of the stripped reply from the first opening delimiter of the
    expected shape to the last closing one, both included (the whole
    stripped reply when one of them is missing); and a reply that holds one
    object or array, with no opening delimiter before it and no closing one
    behind it, yields the result of parsing exactly that text. *)
Theorem fence_free_extraction sh response :
  let reply := strip response in
  contains fence reply = false →
  isolate sh response = inr (between_delimiters sh reply)
  ∧ (∀ i j, index_of (opening sh) reply = Some i →
            rindex_of (closing sh) reply = Some j →
            between_delimiters sh reply = slice reply (Z.of_nat i) (Z.of_nat j + 1)
            ∧ ((i ≤ j)%nat →
               between_delimiters sh reply = take (S j - i) (drop i reply)
               ∧ length (between_delimiters sh reply) = (S j - i)%nat
               ∧ between_delimiters sh reply !! 0%nat = Some (open_char sh)
               ∧ between_delimiters sh reply !! (j - i)%nat = Some (close_char sh)))
  ∧ (∀ pre mid post,
       response = pre ++ open_char sh :: mid ++ close_char sh :: post →
       open_char sh ∉ pre → close_char sh ∉ post →
       isolate sh response = inr (open_char sh :: mid ++ [close_char sh])
       ∧ extract sh response =
           outcome_of (json_loads (open_char sh :: mid ++ [close_char sh]))).
Proof.
  intros reply Hf.
  pose proof (isolate_unfence sh response _ (unfence_plain response Hf)) as Hiso.
  fold reply in Hiso. split_and!; [done| |].
  - intros i j Hi Hj.
    assert (between_delimiters sh reply = slice reply (Z.of_nat i) (Z.of_nat j + 1)) as Hb.
    { unfold between_delimiters, find, rfind. rewrite Hi, Hj.
      assert (contains (opening sh) reply = true) as ->.
      { apply not_false_iff_true. rewrite contains_false. congruence. }
      assert (contains (closing sh) reply = true) as ->; [|done].
      apply rindex_of_sound in Hj as [(a & b & -> & _) _].
      apply contains_true. by exists a, b. }
    split; [done|]. intros Hij. rewrite Hb.
    rewrite opening_char in Hi. rewrite closing_char in Hj.
    apply index_of_sound in Hi as [Hi%occurs_at_char _].
    apply rindex_of_sound in Hj as [Hj%occurs_at_char _].
    pose proof (lookup_lt_Some _ _ _ Hj) as Hlen.
    replace (Z.of_nat j + 1) with (Z.of_nat (S j)) by lia.
    rewrite slice_in_range by lia.
    split_and!.
    + done.
    + rewrite length_take, length_drop. lia.
    + rewrite lookup_take_lt by lia. rewrite lookup_drop.
      by rewrite Nat.add_0_r.
    + rewrite lookup_take_lt by lia. rewrite lookup_drop.
      by replace (i + (j - i))%nat with j by lia.
  - intros pre mid post Hr Hpre Hpost.
    assert (isolate sh response = inr (open_char sh :: mid ++ [close_char sh])) as H.
    { rewrite Hiso. f_equal. unfold reply. rewrite Hr.
      rewrite strip_around
        by (apply open_char_not_space || apply close_char_not_space).
      apply between_delimiters_span.
      - intros Hin. by apply Hpre, lstrip_elem.
      - intros Hin. by apply Hpost, rstrip_elem. }
    split; [done|]. by apply extract_isolate.
Qed.

Lemma fence_free_extraction_witness :
  isolate Object fence_free_reply = inr (reply_text "{'title':'X','total_credits':12}")
  ∧ extract Object fence_free_reply =
      Parsed (Json.Dict [(Json.ulit "title", Json.Str (Json.ulit "X"));
                         (Json.ulit "total_credits", Json.Int 12)]).
Proof.
  destruct (fence_free_extraction Object fence_free_reply) as (_ & _ & H);
    [vm_compute; reflexivity|].
  destruct (H (lit "  Here is the plan: ")
              (reply_text "'title':'X','total_credits':12")
              (lit " Good luck!  ")) as [Hi He].
  - vm_compute. reflexivity.
  - by apply contains_char_false.
  - by apply contains_char_false.
  - split; [rewrite Hi|rewrite He]; vm_compute; reflexivity.
Defined.

(** ** Failure reporting of [generate] *)

Lemma contains_cons (sub : str) c s :
  contains sub (c :: s) = startswith sub (c :: s) || contains sub s.
Proof.
  unfold contains. cbn [index_of].
  destruct (startswith sub (c :: s)); [done|]. simpl.
  by destruct (index_of sub s).
Qed.

Lemma clash_startswith sub t s : clash sub t = true → startswith sub (t ++ s) = false.
Proof.
  revert t. induction sub as [|a sub IH]; intros [|b t]; simpl; try done.
  destruct (Ascii.eqb a b); simpl; [apply IH|done].
Qed.

(** A prefix along which [sub] clashes everywhere adds no occurrence. *)
Lemma contains_behind_prefix sub pre s :
  clashes_along sub pre = true → contains sub (pre ++ s) = contains sub s.
Proof.
  induction pre as [|c pre IH]; [done|]. simpl clashes_along.
  intros [Hc Hp]%andb_true_iff. cbn [app]. rewrite contains_cons.
  change (c :: pre ++ s) with ((c :: pre) ++ s).
  by rewrite (clash_startswith _ _ _ Hc), IH.
Qed.

(** The hint can be read off the message of the raised exception: the
    tests of [generate] give on it what they gave on the error text. *)
Lemma error_hint_of_message error_str :
  error_hint (failure_prefix ++ error_str) = error_hint error_str.
Proof.
  unfold error_hint, lower. rewrite map_app.
  by rewrite !contains_behind_prefix.
Qed.

(** C4, as amended: on any failure of the remote call, [generate] sends the
    one request, prints the error and at most one hint (quota exceeded when
    the error text has 429 or RESOURCE_EXHAUSTED in it; otherwise model not
    found when it has 404 or, in any case of letters, not found; otherwise
    none) and raises one uniform signal: a plain exception whose message is
    the fixed prefix followed by the original error text.  The signal has
    no field for a classification; the hint can be recomputed from its
    message. *)
Theorem generate_failure_is_uniform endpoint self prompt kw w type_name error_str :
  endpoint (calls w) (request_of self prompt kw) = ApiRaise type_name error_str →
  ∃ w', generate endpoint self prompt kw w =
          (inl (Exception_ (failure_prefix ++ error_str)), w')
        ∧ calls w' = S (calls w)
        ∧ log w' = log w ++
            Request (request_of self prompt kw) :: Print (ApiError type_name error_str) ::
            match error_hint error_str with
            | HintQuota => [Print QuotaExceeded]
            | HintNotFound => [Print (ModelNotFound (model_name self))]
            | NoHint => []
            end
        ∧ error_hint (failure_prefix ++ error_str) = error_hint error_str
        ∧ class_of_hint (error_hint error_str) ≠ Unauthorized.
Proof.
  intros E.
  destruct (generate_raise endpoint self prompt kw w type_name error_str E)
    as (w' & Hg & Hc & _ & _ & hints & Hl & ->).
  exists w'. split_and!; [done|done| |apply error_hint_of_message|].
  - rewrite Hl. by destruct (error_hint error_str).
  - by destruct (error_hint error_str).
Qed.

Lemma generate_failure_is_uniform_witness :
  ∃ w', generate unavailable_endpoint example_client (lit "plan") no_kwargs fresh_world =
          (inl (Exception_ (lit "Gemini generation failed: 503 UNAVAILABLE")), w')
        ∧ calls w' = 1%nat.
Proof.
  destruct (generate_failure_is_uniform unavailable_endpoint example_client (lit "plan")
              no_kwargs fresh_world (lit "ServerError") (lit "503 UNAVAILABLE") eq_refl)
    as (w' & Hg & Hc & _).
  exists w'. split; [exact Hg|exact Hc].
Defined.

(** C4, as stated, fails: an error that [check_quota] reports as an invalid
    key selects no branch in [generate]; it is handled exactly as an
    unknown error, and the exception raised holds a message and nothing
    else. *)
Lemma generate_has_no_unauthorized_class :
  let run := generate unauthorized_endpoint example_client (lit "plan") no_kwargs
               fresh_world in
  class_of_report (check_quota_report (lit "401 UNAUTHORIZED")) = Unauthorized
  ∧ class_of_hint (error_hint (lit "401 UNAUTHORIZED")) = Unknown
  ∧ run.1 = inl (Exception_ (lit "Gemini generation failed: 401 UNAUTHORIZED"))
  ∧ log run.2 =
      [Request (request_of example_client (lit "plan") no_kwargs);
       Print (ApiError (lit "ClientError") (lit "401 UNAUTHORIZED"))].
Proof. vm_compute. done. Qed.

(** ** Outcomes of the extractor *)





(** ** The scenarios of the specification, and the decoder at work *)

Example scenario_tagged_block :
  extract Object
    (reply_text "Here you go:|```json|{'title':'X','total_credits':12}|```") =
  Parsed (Json.Dict [(Json.ulit "title", Json.Str (Json.ulit "X"));
                     (Json.ulit "total_credits", Json.Int 12)]).
Proof. vm_compute. reflexivity. Qed.

Example scenario_bare_array :
  extract Array (reply_text "[{'code':'C1','credits':3}]") =
  Parsed (Json.List [Json.Dict [(Json.ulit "code", Json.Str (Json.ulit "C1"));
                                (Json.ulit "credits", Json.Int 3)]]).
Proof. vm_compute. reflexivity. Qed.

(** With a single fence the guard [len(parts) >= 2] holds as well, and what
    follows the fence is taken. *)
Example single_fence_takes_the_tail :
  unfence (reply_text "Here: ``` {'a':1}") = inr (reply_text "{'a':1}").
Proof. vm_compute. reflexivity. Qed.

(** The first opening and the last closing delimiter need not match. *)
Example scan_over_captures :
  isolate Object (reply_text "{'a':1} and {'b':2}") = inr (reply_text "{'a':1} and {'b':2}")
  ∧ extract Object (reply_text "{'a':1} and {'b':2}") =
      Failed (JSONDecodeError Json.ExtraData (reply_text "{'a':1} and {'b':2}") 8).
Proof. vm_compute. done. Qed.

Example json_loads_nested :
  json_loads (reply_text " [ {'a' : [1, -2.5e3, true, null], 'a' : {}} , 'x\u00e9\n' ] ") =
  inr (Json.List
         [Json.Dict [(Json.ulit "a", Json.Dict [])];
          Json.Str [120; 233; 10]%N]).
Proof. vm_compute. reflexivity. Qed.

Example json_loads_errors :
  json_loads (lit "") = inl (JSONDecodeError Json.ExpectingValue (lit "") 0)
  ∧ json_loads (lit "[1,]") = inl (JSONDecodeError Json.ExpectingValue (lit "[1,]") 3)
  ∧ json_loads (lit "[1 2]") = inl (JSONDecodeError Json.ExpectingComma (lit "[1 2]") 3)
  ∧ json_loads (lit "{} x") = inl (JSONDecodeError Json.ExtraData (lit "{} x") 3)
  ∧ json_loads (reply_text "{'a' 1}") =
      inl (JSONDecodeError Json.ExpectingColon (reply_text "{'a' 1}") 5)
  ∧ json_loads (reply_text "'abc") =
      inl (JSONDecodeError Json.UnterminatedString (reply_text "'abc") 0).
Proof. vm_compute. done. Qed.

(** * Further properties of the code *)

(** ** [generate_with_retry]: first success, bounds, and what it returns *)

Section RetryMore.

Variable endpoint : nat → GenerationRequest → api_reply.
Variables (self : GeminiClient) (prompt : str) (kw : kwargs).

Let req := request_of self prompt kw.

(** The loop whose first [k] requests fail and whose next one is answered
    returns that answer. *)
Lemma retry_loop_first_success max_retries text k : ∀ todo attempt w,
  (k < todo)%nat →
  attempt + Z.of_nat todo = max_retries →
  (∀ n, (calls w ≤ n < calls w + k)%nat → is_text (endpoint n req) = false) →
  endpoint (calls w + k)%nat req = ApiText text →
  (retry_loop endpoint self prompt max_retries kw todo attempt w).1 = inr (Some text).
Proof.
  induction k as [|k IH]; intros todo attempt w Hk Hsum Hfail Htext.
  - destruct todo as [|todo]; [lia|]. rewrite Nat.add_0_r in Htext.
    by destruct (retry_loop_turn_text endpoint self prompt kw max_retries todo
                   attempt w text Htext) as (w' & ->).
  - destruct todo as [|todo]; [lia|].
    destruct (retry_loop_turn_retry endpoint self prompt kw max_retries todo attempt w)
      as (w1 & -> & Hc); [apply Hfail; lia|lia|].
    apply IH; [lia|lia| |].
    + intros n Hn. apply Hfail. lia.
    + rewrite Hc. by replace (S (calls w) + k)%nat with (calls w + S k)%nat by lia.
Qed.

Lemma plan_first_success ok max_retries k : ∀ todo attempt n,
  (k < todo)%nat →
  attempt + Z.of_nat todo = max_retries →
  (∀ m, (n ≤ m < n + k)%nat → ok m = false) →
  ok (n + k)%nat = true →
  requests (plan ok req max_retries todo attempt n) = replicate (S k) req
  ∧ sleeps (plan ok req max_retries todo attempt n) =
      (λ a, 2 ^ a) <$> seqZ attempt (Z.of_nat k).
Proof.
  induction k as [|k IH]; intros todo attempt n Hk Hsum Hfail Hok.
  - destruct todo as [|todo]; [lia|]. simpl plan.
    rewrite Nat.add_0_r in Hok. by rewrite Hok.
  - destruct todo as [|todo]; [lia|]. simpl plan.
    rewrite (Hfail n) by lia.
    replace (attempt <? max_retries - 1) with true by (symmetry; apply Z.ltb_lt; lia).
    destruct (IH todo (attempt + 1) (S n)) as [IH1 IH2]; [lia|lia| | |].
    + intros m Hm. apply Hfail. lia.
    + by replace (S n + k)%nat with (n + S k)%nat by lia.
    + split; simpl; [by rewrite IH1|].
      rewrite IH2, (seqZ_cons attempt) by lia. simpl.
      do 3 f_equal; lia.
Qed.

Lemma requests_request r l : requests (Request r :: l) = r :: requests l.
Proof. done. Qed.

Lemma requests_sleep z l : requests (Sleep z :: l) = requests l.
Proof. done. Qed.

Lemma sleeps_request r l : sleeps (Request r :: l) = sleeps l.
Proof. done. Qed.

Lemma sleeps_sleep z l : sleeps (Sleep z :: l) = z :: sleeps l.
Proof. done. Qed.

(** Whatever the endpoint does, the loop sends at most as many requests as
    it has turns, and sleeps less than [2 ^ (max_retries - 1)] in all. *)
Lemma plan_bounded ok max_retries todo : ∀ attempt n,
  0 ≤ attempt →
  attempt + Z.of_nat (S todo) = max_retries →
  (length (requests (plan ok req max_retries (S todo) attempt n)) ≤ S todo)%nat
  ∧ 0 ≤ total (sleeps (plan ok req max_retries (S todo) attempt n))
      ≤ 2 ^ (max_retries - 1) - 2 ^ attempt.
Proof.
  induction todo as [|todo IH]; intros attempt n Ha Hsum.
  - simpl plan. replace (attempt <? max_retries - 1) with false
      by (symmetry; apply Z.ltb_ge; lia).
    replace (max_retries - 1) with attempt by lia.
    destruct (ok n); simpl; lia.
  - change (plan ok req max_retries (S (S todo)) attempt n)
      with (Request req ::
            if ok n then []
            else if attempt <? max_retries - 1
                 then Sleep (2 ^ attempt)
                        :: plan ok req max_retries (S todo) (attempt + 1) (S n)
                 else []).
    assert (2 ^ attempt < 2 ^ (max_retries - 1))
      by (apply Z.pow_lt_mono_r; lia).
    destruct (ok n); [simpl; lia|].
    replace (attempt <? max_retries - 1) with true by (symmetry; apply Z.ltb_lt; lia).
    destruct (IH (attempt + 1) (S n)) as [IH1 IH2]; [lia|lia|].
    assert (2 ^ (attempt + 1) = 2 * 2 ^ attempt) by (rewrite Z.pow_add_r; lia).
    assert (0 < 2 ^ attempt) by (apply Z.pow_pos_nonneg; lia).
    rewrite requests_request, requests_sleep, sleeps_request, sleeps_sleep.
    change (total (2 ^ attempt :: ?l)) with (2 ^ attempt + total l).
    cbn [length]. split; lia.
Qed.

(** With at least one turn, the loop returns a text or raises the uniform
    failure; it does not fall off its end. *)
Lemma retry_loop_result max_retries todo : ∀ attempt w,
  attempt + Z.of_nat (S todo) = max_retries →
  (∃ text, (retry_loop endpoint self prompt max_retries kw (S todo) attempt w).1 =
             inr (Some text))
  ∨ (∃ error_str, (retry_loop endpoint self prompt max_retries kw (S todo) attempt w).1 =
                    inl (generation_failed error_str)).
Proof.
  induction todo as [|todo IH]; intros attempt w Hsum.
  - destruct (endpoint (calls w) req) as [text|ty err] eqn:E.
    + left. exists text.
      by destruct (retry_loop_turn_text endpoint self prompt kw max_retries 0
                     attempt w text E) as (w' & ->).
    + right. exists err.
      destruct (generate_raise endpoint self prompt kw w ty err E) as (w1 & Hg & _).
      simpl. unfold try_except, bind at 1. rewrite Hg.
      by replace (attempt <? max_retries - 1) with false
        by (symmetry; apply Z.ltb_ge; lia).
  - destruct (endpoint (calls w) req) as [text|ty err] eqn:E.
    + left. exists text.
      by destruct (retry_loop_turn_text endpoint self prompt kw max_retries (S todo)
                     attempt w text E) as (w' & ->).
    + destruct (retry_loop_turn_retry endpoint self prompt kw max_retries (S todo)
                  attempt w) as (w1 & -> & _);
        [change (is_text (endpoint (calls w) req) = false); by rewrite E|lia|].
      apply IH. lia.
Qed.

End RetryMore.

(** X1: a call whose first [k] requests fail and whose next request is
    answered, with [k] below [max_retries], returns that answer after
    exactly [k + 1] requests and the sleeps [2^0, ..., 2^(k-1)]. *)
Theorem retry_returns_first_answer endpoint self prompt kw w N k text :
  let req := request_of self prompt kw in
  let run := generate_with_retry endpoint self prompt (Some N) kw w in
  (k < Z.to_nat N)%nat →
  (∀ n, (calls w ≤ n < calls w + k)%nat → is_text (endpoint n req) = false) →
  endpoint (calls w + k)%nat req = ApiText text →
  run.1 = inr (Some text)
  ∧ calls run.2 = (calls w + S k)%nat
  ∧ sleeps (log run.2) = sleeps (log w) ++ ((λ a, 2 ^ a) <$> seqZ 0 (Z.of_nat k)).
Proof.
  intros req run Hk Hfail Htext. subst run req.
  unfold generate_with_retry. simpl default.
  destruct (plan_first_success self prompt kw
              (λ n, is_text (endpoint n (request_of self prompt kw))) N k
              (Z.to_nat N) 0 (calls w)) as [Hreq Hsl];
    [done|lia|done|by rewrite Htext|].
  split_and!.
  - apply (retry_loop_first_success endpoint self prompt kw N text k);
      [done|lia|done|done].
  - rewrite retry_loop_calls, Hreq, length_replicate. lia.
  - rewrite <- (sleeps_timeline (log _)), retry_loop_timeline.
    by rewrite sleeps_app, sleeps_timeline, Hsl.
Qed.

Lemma retry_returns_first_answer_witness :
  let run := generate_with_retry flaky_endpoint example_client (lit "plan") (Some 5)
               no_kwargs fresh_world in
  run.1 = inr (Some (lit "{}")) ∧ calls run.2 = 3%nat ∧ sleeps (log run.2) = [1; 2].
Proof.
  apply (retry_returns_first_answer flaky_endpoint example_client (lit "plan") no_kwargs
           fresh_world 5 2 (lit "{}")).
  - simpl. lia.
  - intros [|[|n]] Hn; simpl in *; (done || lia).
  - reflexivity.
Defined.

(** The bounds of a call, for a given or a defaulted [max_retries]. *)
Lemma generate_with_retry_bounds endpoint self prompt kw w max_retries :
  let N := default 3 max_retries in
  let run := generate_with_retry endpoint self prompt max_retries kw w in
  1 ≤ N →
  (calls w ≤ calls run.2 ≤ calls w + Z.to_nat N)%nat
  ∧ ∃ zs, sleeps (log run.2) = sleeps (log w) ++ zs
          ∧ 0 ≤ total zs ≤ 2 ^ (N - 1) - 1.
Proof.
  intros N run HN. subst run. unfold generate_with_retry. fold N.
  destruct (Z.to_nat N) as [|todo] eqn:EN; [lia|].
  destruct (plan_bounded self prompt kw
              (λ n, is_text (endpoint n (request_of self prompt kw))) N todo 0 (calls w))
    as [Hreq Hsl]; [lia|lia|].
  split.
  - rewrite retry_loop_calls. lia.
  - eexists. split.
    + rewrite <- (sleeps_timeline (log _)), retry_loop_timeline.
      by rewrite sleeps_app, sleeps_timeline.
    + change (2 ^ 0) with 1 in Hsl. exact Hsl.
Qed.

(** X2: whatever the endpoint answers or raises, a call with
    [max_retries = N >= 1] sends at most [N] requests and sleeps at most
    [2^(N-1) - 1] seconds in all. *)
Theorem retry_is_bounded endpoint self prompt kw w N :
  let run := generate_with_retry endpoint self prompt (Some N) kw w in
  1 ≤ N →
  (calls w ≤ calls run.2 ≤ calls w + Z.to_nat N)%nat
  ∧ ∃ zs, sleeps (log run.2) = sleeps (log w) ++ zs
          ∧ 0 ≤ total zs ≤ 2 ^ (N - 1) - 1.
Proof.
  intros run HN.
  exact (generate_with_retry_bounds endpoint self prompt kw w (Some N) HN).
Qed.

Lemma retry_is_bounded_witness :
  let run := generate_with_retry unavailable_endpoint example_client (lit "plan")
               (Some 3) no_kwargs fresh_world in
  (calls run.2 ≤ 3)%nat
  ∧ ∃ zs, sleeps (log run.2) = zs ∧ total zs ≤ 3.
Proof.
  destruct (retry_is_bounded unavailable_endpoint example_client (lit "plan") no_kwargs
              fresh_world 3) as [Hc (zs & Hs & Ht)]; [lia|].
  split; [exact (proj2 Hc)|]. exists zs. split; [exact Hs|exact (proj2 Ht)].
Defined.

(** X3: a call returns [None] exactly when [max_retries <= 0]; with
    [max_retries >= 1] it returns a text or raises the uniform failure
    built from an error text, whatever the endpoint does. *)
Theorem retry_returns_None_iff endpoint self prompt kw w N :
  let run := generate_with_retry endpoint self prompt (Some N) kw w in
  (run.1 = inr None ↔ N ≤ 0)
  ∧ (1 ≤ N →
     (∃ text, run.1 = inr (Some text))
     ∨ (∃ error_str, run.1 = inl (generation_failed error_str))).
Proof.
  intros run. subst run.
  assert (1 ≤ N →
          (∃ text, (generate_with_retry endpoint self prompt (Some N) kw w).1 =
                     inr (Some text))
          ∨ (∃ error_str, (generate_with_retry endpoint self prompt (Some N) kw w).1 =
                            inl (generation_failed error_str))) as Hpos.
  { intros HN. unfold generate_with_retry. simpl default.
    destruct (Z.to_nat N) as [|todo] eqn:EN; [lia|].
    apply retry_loop_result. lia. }
  split; [|done]. split.
  - intros Hnone. destruct (decide (N ≤ 0)) as [|Hn]; [done|].
    destruct Hpos as [[text Ht]|[err He]]; [lia| |]; congruence.
  - intros HN. unfold generate_with_retry. simpl default.
    by replace (Z.to_nat N) with 0%nat by lia.
Qed.

Lemma retry_returns_None_iff_witness :
  (∃ text, (generate_with_retry unauthorized_endpoint example_client (lit "plan")
              (Some 2) no_kwargs fresh_world).1 = inr (Some text))
  ∨ (∃ error_str, (generate_with_retry unauthorized_endpoint example_client (lit "plan")
                     (Some 2) no_kwargs fresh_world).1 =
                    inl (generation_failed error_str)).
Proof.
  apply (retry_returns_None_iff unauthorized_endpoint example_client (lit "plan")
           no_kwargs fresh_world 2). lia.
Defined.

(** ** [GeminiClient]: construction and a single generation *)

(** X4: the constructor succeeds exactly when [GOOGLE_API_KEY] has a
    non-empty value in the environment or, failing that, in the [.env]
    file; the client then holds that value and the model name asked for.  A
    value already in the environment is not overridden by the file.  In
    every case the constructor sends no request and does not sleep. *)
Theorem GeminiClient_init_succeeds_iff model_name w :
  let run := GeminiClient_init model_name w in
  let key := (environ w ∪ dotenv_file w) !! "GOOGLE_API_KEY" in
  (∀ c, run.1 = inr c ↔
        ∃ k, key = Some k ∧ k ≠ [] ∧ c = {| api_key := k; model_name := model_name |})
  ∧ (∀ k, environ w !! "GOOGLE_API_KEY" = Some k → key = Some k)
  ∧ (environ w !! "GOOGLE_API_KEY" = None → key = dotenv_file w !! "GOOGLE_API_KEY")
  ∧ calls run.2 = calls w
  ∧ timeline (log run.2) = timeline (log w).
Proof.
  intros run key. subst run.
  unfold GeminiClient_init, bind, load_dotenv, getenv.
  cbn [environ dotenv_file calls log]. fold key.
  split_and!.
  - intros c. destruct key as [[|a k]|]; simpl; split.
    + done.
    + by intros (k & [= <-] & Hk & _).
    + intros [= <-]. by exists (a :: k).
    + by intros (k' & [= <-] & _ & ->).
    + done.
    + by intros (k & [=] & _).
  - intros k Hk. unfold key. by apply lookup_union_Some_l.
  - intros Hk. unfold key. by apply lookup_union_r.
  - by destruct key as [[|a k]|].
  - destruct key as [[|a k]|]; simpl; try done.
    by rewrite timeline_app, app_nil_r.
Qed.

Lemma GeminiClient_init_succeeds_iff_witness :
  (GeminiClient_init default_model_name fresh_world).1 = inr example_client.
Proof.
  destruct (GeminiClient_init_succeeds_iff default_model_name fresh_world) as (H & _).
  apply H. exists (lit "AIza-example"). split_and!; [vm_compute; reflexivity|done|done].
Defined.

(** X5: [generate] sends exactly one request per call, answered or not: it
    never retries and never sleeps.  The request carries the caller's
    output cap, or 8192 when none or zero was given, so never a zero cap;
    an answer is returned unchanged with nothing printed. *)
Theorem generate_sends_one_request endpoint self prompt kw w :
  let req := request_of self prompt kw in
  let run := generate endpoint self prompt kw w in
  calls run.2 = S (calls w)
  ∧ timeline (log run.2) = timeline (log w) ++ [Request req]
  ∧ max_output_tokens req ≠ 0
  ∧ (∀ n, kw_max_tokens kw = Some n → n ≠ 0 → max_output_tokens req = n)
  ∧ (∀ text, endpoint (calls w) req = ApiText text →
             run.1 = inr text ∧ log run.2 = log w ++ [Request req]).
Proof.
  intros req run. subst run.
  assert (max_output_tokens req ≠ 0 ∧
          ∀ n, kw_max_tokens kw = Some n → n ≠ 0 → max_output_tokens req = n) as [H1 H2].
  { unfold req, request_of. simpl.
    destruct (kw_max_tokens kw) as [n|]; [|split; [done|by intros ? [=]]].
    destruct (n =? 0) eqn:E.
    - apply Z.eqb_eq in E. split; [done|]. by intros m [= <-] Hm.
    - apply Z.eqb_neq in E. split; [done|]. by intros ? [= <-]. }
  destruct (endpoint (calls w) req) as [text|ty err] eqn:E.
  - rewrite (generate_text endpoint self prompt kw w text E). simpl.
    split_and!; try done.
    + by rewrite timeline_app.
    + by intros ? [= <-].
  - destruct (generate_raise endpoint self prompt kw w ty err E)
      as (w' & -> & Hc & _ & Ht & _). simpl.
    split_and!; done.
Qed.

Lemma generate_sends_one_request_witness :
  let run := generate answering_endpoint example_client (lit "plan") no_kwargs fresh_world in
  run.1 = inr (reply_text "[{'code':'C1','credits':3}]")
  ∧ log run.2 = [Request (request_of example_client (lit "plan") no_kwargs)].
Proof.
  destruct (generate_sends_one_request answering_endpoint example_client (lit "plan")
              no_kwargs fresh_world) as (_ & _ & _ & _ & H).
  apply (H (reply_text "[{'code':'C1','credits':3}]")). vm_compute. reflexivity.
Defined.

(** ** The two tabs: from the submitted form to the outcome *)

(** The [try] block of a tab, by what its steps return. *)
Lemma generate_and_extract_run endpoint sh prompt temperature w :
  generate_and_extract endpoint sh prompt temperature w =
    match GeminiClient_init default_model_name w with
    | (inl e, w1) => (inr (Failed e), w1)
    | (inr llm_client, w1) =>
        match generate_with_retry endpoint llm_client prompt None
                (tab_kwargs temperature) w1 with
        | (inl e, w2) => (inr (Failed e), w2)
        | (inr None, w2) =>
            (inr (Failed (AttributeError
                            (lit "'NoneType' object has no attribute 'strip'"))), w2)
        | (inr (Some response), w2) => (inr (extract sh response), w2)
        end
    end.
Proof.
  unfold generate_and_extract, try_except, bind at 1.
  destruct (GeminiClient_init default_model_name w) as [[e|c] w1]; [done|].
  unfold bind at 1. fold (tab_kwargs temperature).
  destruct (generate_with_retry endpoint c prompt None (tab_kwargs temperature) w1)
    as [[e|[response|]] w2]; [done| |done].
  unfold bind, strip_response, lift, ret, raise, extract.
  destruct (isolate sh response) as [e|json_str]; [done|].
  by destruct (json_loads json_str).
Qed.

(** The constructor on a world that has a key. *)
Lemma GeminiClient_init_present model_name w k :
  (environ w ∪ dotenv_file w) !! "GOOGLE_API_KEY" = Some k → k ≠ [] →
  GeminiClient_init model_name w =
    (inr {| api_key := k; model_name := model_name |},
     {| environ := environ w ∪ dotenv_file w; dotenv_file := dotenv_file w;
        calls := calls w; log := log w ++ [Print (InitOk model_name)] |}).
Proof.
  intros H Hk. unfold GeminiClient_init, bind, load_dotenv, getenv.
  cbn [environ dotenv_file calls log]. rewrite H. by destruct k.
Qed.

(** The constructor neither sends a request nor sleeps. *)
Lemma GeminiClient_init_quiet model_name w :
  calls (GeminiClient_init model_name w).2 = calls w
  ∧ sleeps (log (GeminiClient_init model_name w).2) = sleeps (log w).
Proof.
  unfold GeminiClient_init, bind, load_dotenv, getenv.
  cbn [environ dotenv_file calls log].
  destruct ((environ w ∪ dotenv_file w) !! "GOOGLE_API_KEY") as [[|a k]|];
    simpl; try done.
  by rewrite sleeps_app, app_nil_r.
Qed.

(** X6: with a key configured, the [try] block of a tab (up to
    [json.loads]) whose first request is answered ends in the outcome of
    extraction on that answer after exactly one request and no sleep; in
    particular a reply that fails to parse is not asked for again. *)
Theorem tab_first_answer endpoint sh prompt temperature w k text :
  let llm_client := {| api_key := k; model_name := default_model_name |} in
  let run := generate_and_extract endpoint sh prompt temperature w in
  (environ w ∪ dotenv_file w) !! "GOOGLE_API_KEY" = Some k → k ≠ [] →
  endpoint (calls w) (request_of llm_client prompt (tab_kwargs temperature)) = ApiText text →
  run.1 = inr (extract sh text)
  ∧ calls run.2 = S (calls w)
  ∧ sleeps (log run.2) = sleeps (log w).
Proof.
  intros llm_client run Hkey Hk Htext. subst run.
  rewrite generate_and_extract_run, (GeminiClient_init_present _ _ _ Hkey Hk).
  fold llm_client.
  set (w1 := {| environ := _; dotenv_file := _; calls := calls w; log := _ |}).
  destruct (retry_loop_turn_text endpoint llm_client prompt (tab_kwargs temperature)
              3 2 0 w1 text Htext) as (w2 & Hrun).
  pose proof (retry_loop_calls endpoint llm_client prompt (tab_kwargs temperature)
                3 3 0 w1) as Hc.
  pose proof (retry_loop_timeline endpoint llm_client prompt (tab_kwargs temperature)
                3 3 0 w1) as Ht.
  change (generate_with_retry endpoint llm_client prompt None (tab_kwargs temperature) w1)
    with (retry_loop endpoint llm_client prompt 3 (tab_kwargs temperature) 3 0 w1).
  rewrite Hrun in Hc, Ht |- *. simpl plan in Hc, Ht.
  change (calls w1) with (calls w) in Hc, Ht. rewrite Htext in Hc, Ht.
  simpl in Hc |- *. split_and!; [done|lia|].
  rewrite <- (sleeps_timeline (log w2)). simpl in Ht. rewrite Ht.
  rewrite sleeps_app, sleeps_timeline. unfold w1. simpl.
  by rewrite sleeps_app, !app_nil_r.
Qed.

Lemma tab_first_answer_witness :
  let run := recommender_tab answering_endpoint (lit "plan") fresh_world in
  run.1 = inr (Parsed (Json.List [Json.Dict [(Json.ulit "code", Json.Str (Json.ulit "C1"));
                                             (Json.ulit "credits", Json.Int 3)]]))
  ∧ calls run.2 = 1%nat.
Proof.
  destruct (tab_first_answer answering_endpoint Array (lit "plan") (6 # 10)%Q fresh_world
              (lit "AIza-example") (reply_text "[{'code':'C1','credits':3}]"))
    as (Hr & Hc & _); [vm_compute; reflexivity|done|reflexivity|].
  split; [|exact Hc].
  unfold recommender_tab. rewrite Hr. vm_compute. reflexivity.
Defined.

(** X7: whatever the configuration, the endpoint and the reply, the [try]
    block of a tab (up to [json.loads]) sends at most three requests and
    sleeps at most three seconds in all, and it always ends in an outcome:
    no exception leaves it. *)
Theorem tab_is_bounded endpoint sh prompt temperature w :
  let run := generate_and_extract endpoint sh prompt temperature w in
  (∃ outcome, run.1 = inr outcome)
  ∧ (calls w ≤ calls run.2 ≤ calls w + 3)%nat
  ∧ ∃ zs, sleeps (log run.2) = sleeps (log w) ++ zs ∧ 0 ≤ total zs ≤ 3.
Proof.
  intros run. subst run. rewrite generate_and_extract_run.
  destruct (GeminiClient_init_quiet default_model_name w) as [Hc Hs].
  destruct (GeminiClient_init default_model_name w) as [[e|c] w1]; simpl in Hc, Hs.
  - simpl. split; [by eexists|]. split; [lia|].
    exists []. rewrite Hs, app_nil_r. done.
  - destruct (generate_with_retry_bounds endpoint c prompt (tab_kwargs temperature) w1 None)
      as [Hc2 (zs & Hs2 & Ht)]; [done|].
    simpl in Hc2, Hs2, Ht.
    destruct (generate_with_retry endpoint c prompt None (tab_kwargs temperature) w1)
      as [[e|[response|]] w2]; simpl in *;
      (split; [by eexists|]; split; [lia|];
       exists zs; rewrite Hs2, Hs; split; [done|lia]).
Qed.

(** X8: with a key configured and every request failing, a tab ends in the
    failure [generate] raised on its third request, after three requests and
    sleeps of one and two seconds. *)
Theorem tab_exhaustion endpoint sh prompt temperature w k :
  let llm_client := {| api_key := k; model_name := default_model_name |} in
  let req := request_of llm_client prompt (tab_kwargs temperature) in
  let run := generate_and_extract endpoint sh prompt temperature w in
  (environ w ∪ dotenv_file w) !! "GOOGLE_API_KEY" = Some k → k ≠ [] →
  (∀ n, (calls w ≤ n)%nat → is_text (endpoint n req) = false) →
  (∀ type_name error_str,
     endpoint (calls w + 2)%nat req = ApiRaise type_name error_str →
     run.1 = inr (Failed (generation_failed error_str)))
  ∧ (∃ error_str, run.1 = inr (Failed (generation_failed error_str)))
  ∧ calls run.2 = (calls w + 3)%nat
  ∧ sleeps (log run.2) = sleeps (log w) ++ [1; 2].
Proof.
  intros llm_client req run Hkey Hk Hfail. subst run req.
  rewrite generate_and_extract_run, (GeminiClient_init_present _ _ _ Hkey Hk).
  fold llm_client.
  set (req := request_of llm_client prompt (tab_kwargs temperature)) in *.
  set (w1 := {| environ := _; dotenv_file := _; calls := calls w; log := _ |}).
  change (generate_with_retry endpoint llm_client prompt None (tab_kwargs temperature) w1)
    with (retry_loop endpoint llm_client prompt 3 (tab_kwargs temperature) 3 0 w1).
  destruct (retry_loop_exhausted endpoint llm_client prompt (tab_kwargs temperature)
              3 2 0 w1) as (w_last & w_gen & w' & e & _ & _ & Hrun & Hc & He);
    [done|done|].
  pose proof (retry_loop_timeline endpoint llm_client prompt (tab_kwargs temperature)
                3 3 0 w1) as Ht.
  destruct (plan_all_fail (λ n, is_text (endpoint n req)) req 3 3 0 (calls w1))
    as [_ Hsl]; [done|done|].
  fold req in Ht, He. rewrite Hrun in Ht |- *. cbn [fst snd] in Ht |- *.
  assert (∃ error_str, e = generation_failed error_str) as [err Herr].
  { pose proof (Hfail (calls w + 2)%nat ltac:(lia)) as Hf.
    destruct (endpoint (calls w + 2)%nat req) as [|ty err] eqn:E; [done|].
    exists err. by apply (He ty). }
  split_and!.
  - intros ty err' E. by rewrite (He ty err' E).
  - exists err. by rewrite Herr.
  - exact Hc.
  - rewrite <- (sleeps_timeline (log w')), Ht.
    rewrite sleeps_app, sleeps_timeline, Hsl. unfold w1. cbn [log].
    by rewrite sleeps_app, app_nil_r.
Qed.

Lemma tab_exhaustion_witness :
  let run := career_path_tab unauthorized_endpoint (lit "plan") fresh_world in
  run.1 = inr (Failed (generation_failed (lit "401 UNAUTHORIZED")))
  ∧ calls run.2 = 3%nat
  ∧ sleeps (log run.2) = [1; 2].
Proof.
  destruct (tab_exhaustion unauthorized_endpoint Object (lit "plan") (5 # 10)%Q
              fresh_world (lit "AIza-example"))
    as (Hr & _ & Hc & Hs); [vm_compute; reflexivity|done|done|].
  split_and!; [|exact Hc|exact Hs].
  by apply (Hr (lit "ClientError")).
Defined.

(** ** The extractor at its edges *)

Section ExtractorEdges.

Implicit Types (s r a b response : str) (sh : shape).

Lemma lstrip_blank a s : blank a → lstrip (a ++ s) = lstrip s.
Proof.
  unfold blank. induction 1 as [|c a Hc _ IH]; [done|]. simpl. by rewrite Hc.
Qed.

Lemma rstrip_blank s b : blank b → rstrip (s ++ b) = rstrip s.
Proof.
  intros Hb. unfold rstrip. rewrite rev_app_distr, lstrip_blank; [done|].
  unfold blank in *.
  apply Forall_forall. intros c Hc. rewrite Forall_forall in Hb. apply Hb.
  by rewrite list_elem_of_In, <- in_rev, <- list_elem_of_In in Hc.
Qed.

Lemma rstrip_all_blank b : blank b → rstrip b = [].
Proof. intros Hb. by rewrite <- (app_nil_l b), rstrip_blank. Qed.

(** A text is blank, or has a last character that is not. *)
Lemma last_non_blank r :
  blank r ∨ ∃ r1 d r2, r = r1 ++ d :: r2 ∧ isspace d = false ∧ blank r2.
Proof.
  induction r as [|c r [IH|(r1 & d & r2 & -> & Hd & Hr2)]].
  - left. by constructor.
  - destruct (isspace c) eqn:Hc.
    + left. by constructor.
    + right. by exists [], c, r.
  - right. by exists (c :: r1), d, r2.
Qed.

(** Blanks around a text do not change what [strip] makes of it. *)
Lemma strip_blank_around a r b : blank a → blank b → strip (a ++ r ++ b) = strip r.
Proof.
  intros Ha Hb. unfold strip.
  rewrite app_assoc, rstrip_blank by done.
  destruct (last_non_blank r) as [Hr|(r1 & d & r2 & -> & Hd & Hr2)].
  - rewrite (rstrip_all_blank r Hr), rstrip_all_blank; [done|].
    by apply Forall_app.
  - rewrite app_assoc, !rstrip_app_stop, (rstrip_all_blank r2 Hr2) by done.
    by rewrite <- app_assoc, lstrip_blank.
Qed.

(** The first opening character before the last closing one: the text
    around them has no opening character before and no closing one
    behind. *)
Lemma delimiters_decompose (o cl : ascii) s i j :
  index_of [o] s = Some i → rindex_of [cl] s = Some j → (i < j)%nat →
  ∃ a mid b, s = (a ++ o :: mid ++ cl :: b) ∧ (o ∉ a) ∧ (cl ∉ b).
Proof.
  intros Hi Hj Hij.
  apply index_of_sound in Hi as [(a & rest & Hs & Ha) Hmin].
  apply rindex_of_sound in Hj as [(a' & b & Hs' & Ha') Hmax].
  simpl in Hs, Hs'. subst s.
  apply app_eq_inv in Hs' as [(k & Hk1 & Hk2)|(k & Hk1 & Hk2)].
  - rewrite Hk1, length_app in Ha. lia.
  - destruct k as [|x k].
    + rewrite app_nil_r in Hk1. subst a'. lia.
    + simpl in Hk2. injection Hk2 as Hx Hrest.
      exists a, k, b. split_and!.
      * by rewrite Hrest.
      * intros Hin. apply list_elem_of_lookup in Hin as [p Hp].
        apply (Hmin p); [apply lookup_lt_Some in Hp; lia|].
        apply occurs_at_char. by apply lookup_app_l_Some.
      * intros Hin. apply list_elem_of_lookup in Hin as [p Hp].
        apply (Hmax (length a' + S p)%nat); [lia|].
        apply occurs_at_char. rewrite Hrest.
        replace (a ++ o :: k ++ cl :: b) with ((a ++ o :: k) ++ cl :: b)
          by (by rewrite <- app_assoc).
        rewrite Hx, <- Hk1.
        rewrite lookup_app_r by lia.
        by replace (length a' + S p - length a')%nat with (S p) by lia.
Qed.

End ExtractorEdges.

(** X9: a reply cut off inside its JSON-tagged block, with no fence behind
    the opening one, is not rejected: everything behind the opening fence
    is taken as the block. *)
Theorem unclosed_tagged_block sh response i :
  let reply := strip response in
  let rest := drop (i + length json_fence) reply in
  index_of json_fence reply = Some i →
  contains fence rest = false →
  unfence response = inr (strip rest)
  ∧ extract sh response = outcome_of (json_loads (between_delimiters sh (strip rest))).
Proof.
  intros reply rest Hi Hf.
  assert (unfence response = inr (strip rest)) as Hu.
  { rewrite (unfence_tagged response i Hi). fold reply rest. unfold before.
    apply contains_false in Hf as Hf'.
    pose proof (contains_false_longer fence json_fence rest eq_refl Hf) as Hj.
    apply contains_false in Hj. by rewrite Hj, Hf'. }
  split; [done|]. apply extract_isolate. by apply isolate_unfence.
Qed.

Lemma unclosed_tagged_block_witness :
  extract Object (reply_text "```json|{'title':'X'}") =
  Parsed (Json.Dict [(Json.ulit "title", Json.Str (Json.ulit "X"))]).
Proof.
  destruct (unclosed_tagged_block Object (reply_text "```json|{'title':'X'}") 0)
    as [_ ->]; vm_compute; reflexivity.
Defined.

(** X10: when the last closing delimiter stands before the first opening
    one, the slice taken is empty and extraction fails with the parser's
    complaint about an empty text. *)
Theorem reversed_delimiters_fail sh response unfenced i j :
  unfence response = inr unfenced →
  index_of (opening sh) unfenced = Some i →
  rindex_of (closing sh) unfenced = Some j →
  (j < i)%nat →
  isolate sh response = inr []
  ∧ extract sh response = Failed (JSONDecodeError Json.ExpectingValue [] 0).
Proof.
  intros Hu Hi Hj Hji.
  assert (between_delimiters sh unfenced = []) as Hb.
  { unfold between_delimiters, find, rfind. rewrite Hi, Hj.
    assert (contains (opening sh) unfenced = true) as ->.
    { apply not_false_iff_true. rewrite contains_false. congruence. }
    assert (contains (closing sh) unfenced = true) as ->.
    { apply rindex_of_sound in Hj as [(a & b & -> & _) _].
      apply contains_true. by exists a, b. }
    simpl. replace (Z.of_nat j + 1) with (Z.of_nat (S j)) by lia.
    apply slice_empty; [lia|].
    apply index_of_bound in Hi. lia. }
  assert (isolate sh response = inr []) as Hiso
    by (by rewrite (isolate_unfence sh response unfenced Hu), Hb).
  split; [done|]. by rewrite (extract_isolate sh response [] Hiso).
Qed.

Lemma reversed_delimiters_fail_witness :
  extract Object (lit "} see above {") =
  Failed (JSONDecodeError Json.ExpectingValue [] 0).
Proof.
  by destruct (reversed_delimiters_fail Object (lit "} see above {")
                 (lit "} see above {") 12 0) as [_ ->]; [..|lia|].
Defined.

(** X11: the delimiter scan is idempotent: applied to its own result it
    changes nothing. *)
Theorem between_delimiters_idempotent sh s :
  between_delimiters sh (between_delimiters sh s) = between_delimiters sh s.
Proof.
  destruct (contains (opening sh) s && contains (closing sh) s) eqn:Hboth.
  2: { assert (between_delimiters sh s = s) as Hs
         by (unfold between_delimiters; by rewrite Hboth).
       by rewrite !Hs. }
  apply andb_true_iff in Hboth as [Ho Hc].
  destruct (index_of (opening sh) s) as [i|] eqn:Hi;
    [|apply contains_false in Hi; congruence].
  destruct (rindex_of_is_Some _ _ Hc) as [j Hj].
  rewrite opening_char in Hi. rewrite closing_char in Hj.
  destruct (Nat.lt_trichotomy i j) as [Hlt|[->|Hgt]].
  - destruct (delimiters_decompose _ _ _ _ _ Hi Hj Hlt) as (a & mid & b & -> & Ha & Hb).
    rewrite (between_delimiters_span sh a mid b Ha Hb).
    apply (between_delimiters_span sh [] mid []); apply not_elem_of_nil.
  - apply index_of_sound in Hi as [Hi%occurs_at_char _].
    apply rindex_of_sound in Hj as [Hj%occurs_at_char _].
    rewrite Hi in Hj. by destruct sh.
  - assert (between_delimiters sh s = []) as ->; [|by destruct sh].
    unfold between_delimiters, find, rfind.
    rewrite Ho, Hc, opening_char, closing_char, Hi, Hj. simpl.
    replace (Z.of_nat j + 1) with (Z.of_nat (S j)) by lia.
    apply slice_empty; [lia|]. apply index_of_bound in Hi. lia.
Qed.

(** X12: white space before and behind a reply does not change the
    outcome of extraction. *)
Theorem extraction_ignores_blank_margins sh a response b :
  blank a → blank b →
  extract sh (a ++ response ++ b) = extract sh response.
Proof.
  intros Ha Hb. unfold extract, isolate, unfence.
  by rewrite (strip_blank_around a response b Ha Hb).
Qed.

Lemma extraction_ignores_blank_margins_witness :
  extract Array (reply_text "| |[{'code':'C1','credits':3}]|  ") =
  extract Array (reply_text "[{'code':'C1','credits':3}]").
Proof.
  apply (extraction_ignores_blank_margins Array (reply_text "| |")
           (reply_text "[{'code':'C1','credits':3}]") (reply_text "|  ")).
  - repeat constructor.
  - repeat constructor.
Defined.

(** ** The forms, the prompts and the quota probe *)

Section FormFacts.

Implicit Types (s sep sub p x : str).

Lemma lstrip_suffix_blank s : ∃ a, s = a ++ lstrip s ∧ blank a.
Proof.
  induction s as [|c s (a & IH & Ha)]; simpl; [by exists []; split; [|constructor]|].
  destruct (isspace c) eqn:Hc.
  - exists (c :: a). split; [simpl; by f_equal|by constructor].
  - exists []. split; [done|constructor].
Qed.

Lemma blank_rev b : blank b → blank (rev b).
Proof.
  unfold blank. rewrite !Forall_forall. intros H c Hc. apply H.
  by rewrite list_elem_of_In, <- in_rev, <- list_elem_of_In in Hc.
Qed.

(** What [strip] removes is white space. *)
Lemma strip_part_blank s : ∃ a b, s = a ++ strip s ++ b ∧ blank a ∧ blank b.
Proof.
  unfold strip, rstrip.
  destruct (lstrip_suffix_blank (rev s)) as (b & Hb & Hbb).
  destruct (lstrip_suffix_blank (rev (lstrip (rev s)))) as (a & Ha & Haa).
  exists a, (rev b). split_and!; [|done|by apply blank_rev].
  rewrite app_assoc, <- Ha, <- rev_app_distr, <- Hb. by rewrite rev_involutive.
Qed.

Lemma strip_idempotent s : strip (strip s) = strip s.
Proof.
  destruct (strip_part_blank s) as (a & b & Hs & Ha & Hb).
  rewrite Hs at 2. by rewrite strip_blank_around.
Qed.

Lemma strip_blank s : blank s → strip s = [].
Proof.
  intros Hs. unfold strip. by rewrite rstrip_all_blank.
Qed.

(** The parts of a split have no separator in them, and are made of
    characters of the text. *)
Lemma split_parts sep : sep ≠ [] → ∀ s p,
  p ∈ split sep s → contains sep p = false ∧ ∀ c, c ∈ p → c ∈ s.
Proof.
  intros Hsep s. remember (length s) as n eqn:Hn. revert s Hn.
  induction (lt_wf n) as [n _ IH]. intros s -> p.
  rewrite split_unfold by done.
  destruct (index_of sep s) as [i|] eqn:E.
  - intros [->|Hin]%elem_of_cons.
    + split.
      * apply not_true_iff_false. rewrite contains_true. intros (a & b & Ht).
        apply index_of_sound in E as [_ Hmin].
        assert (length a < i)%nat.
        { apply (f_equal length) in Ht. rewrite !length_app, length_take in Ht.
          destruct sep; [done|]. simpl in Ht. lia. }
        apply (Hmin (length a)); [done|].
        apply (occurs_at_take _ _ i). by exists a, b.
      * intros c Hc. rewrite <- (take_drop i s). apply elem_of_app. by left.
    + pose proof (index_of_bound _ _ _ E) as Hb.
      assert (0 < length sep)%nat by (destruct sep; [done|simpl; lia]).
      destruct (IH (length (drop (i + length sep) s))
                  ltac:(rewrite length_drop; lia) _ eq_refl p Hin) as [H1 H2].
      split; [done|]. intros c Hc.
      rewrite <- (take_drop (i + length sep) s). apply elem_of_app. right. by apply H2.
  - intros ->%list_elem_of_singleton. split; [by apply contains_false|done].
Qed.

(** X13: the fields read from a form are clean: each one is non-empty, has
    no white space at its ends and no separator in it. *)
Theorem stripped_fields_clean sep s x :
  sep ≠ [] → x ∈ stripped_fields sep s →
  x ≠ [] ∧ strip x = x ∧ contains sep x = false.
Proof.
  intros Hsep Hx. unfold stripped_fields in Hx.
  apply list_elem_of_omap in Hx as (p & Hp & Hx).
  destruct (truthy (strip p)) eqn:Ht; [|done]. injection Hx as <-.
  split_and!.
  - by destruct (strip p).
  - apply strip_idempotent.
  - apply contains_strip_false. by apply (split_parts sep Hsep s).
Qed.

Lemma stripped_fields_clean_witness :
  stripped_fields (lit ",") (lit " Hands-on projects ,, Part-time friendly ,") =
    [lit "Hands-on projects"; lit "Part-time friendly"]
  ∧ strip (lit "Part-time friendly") = lit "Part-time friendly".
Proof.
  split; [vm_compute; reflexivity|].
  apply (stripped_fields_clean (lit ",")
           (lit " Hands-on projects ,, Part-time friendly ,")
           (lit "Part-time friendly")); [done|].
  vm_compute. apply list_elem_of_further, list_elem_of_here.
Defined.

(** A text of separators and white space only has no field. *)
Lemma stripped_fields_blank sep s :
  sep ≠ [] → (∀ c, c ∈ s → isspace c = true ∨ c ∈ sep) →
  length sep = 1%nat →
  stripped_fields sep s = [].
Proof.
  intros Hsep Hs Hlen. unfold stripped_fields.
  destruct sep as [|d [|? ?]]; try done.
  assert (∀ p, p ∈ split [d] s → strip p = []) as Hblank.
  { intros p Hp. destruct (split_parts [d] Hsep s p Hp) as [Hno Hsub].
    apply strip_blank. apply Forall_forall. intros c Hc.
    destruct (Hs c (Hsub c Hc)) as [|Hd]; [done|].
    apply list_elem_of_singleton in Hd as ->.
    apply contains_char_false in Hno. done. }
  induction (split [d] s) as [|p l IH]; [done|]. simpl.
  rewrite (Hblank p) by apply list_elem_of_here. simpl.
  apply IH. intros q Hq. apply Hblank. by apply list_elem_of_further.
Qed.

Lemma contains_refl sub : contains sub sub = true.
Proof. apply contains_true. exists [], []. by rewrite app_nil_r. Qed.

Lemma contains_app_l sub s b : contains sub s = true → contains sub (s ++ b) = true.
Proof.
  intros (a' & b' & ->)%contains_true. apply contains_true.
  exists a', (b' ++ b). by rewrite <- !app_assoc.
Qed.

Lemma contains_app_r sub a s : contains sub s = true → contains sub (a ++ s) = true.
Proof.
  intros (a' & b' & ->)%contains_true. apply contains_true.
  exists (a ++ a'), b'. by rewrite <- !app_assoc.
Qed.

(** A joined text ends with its last part. *)
Lemma join_last sep parts p : ∃ a, join sep (parts ++ [p]) = a ++ p.
Proof.
  induction parts as [|q parts [a IH]]; [by exists []|].
  destruct parts as [|q' parts].
  - exists (q ++ sep). simpl. by rewrite <- app_assoc.
  - exists (q ++ sep ++ a).
    change ((q :: q' :: parts) ++ [p]) with (q :: (q' :: parts) ++ [p]).
    change (join sep (q :: (q' :: parts) ++ [p]))
      with (q ++ sep ++ join sep ((q' :: parts) ++ [p])).
    rewrite IH. by rewrite <- !app_assoc.
Qed.

End FormFacts.

(** X14: a preferences field that holds only commas and white space adds no
    line to the prompt: the career-path tab submits what it submits for an
    empty field. *)
Theorem blank_preferences_leave_no_line target_role current_level duration background
    preferences :
  (∀ c, c ∈ preferences → isspace c = true ∨ c = ","%char) →
  career_form_prompt target_role current_level duration background preferences =
  career_form_prompt target_role current_level duration background [].
Proof.
  intros Hp. unfold career_form_prompt.
  destruct (truthy target_role); [|done]. f_equal.
  destruct (truthy preferences) eqn:Ht; [|by destruct preferences].
  rewrite (stripped_fields_blank (lit ",") preferences); [| done | | done].
  - simpl truthy. unfold get_career_path_prompt. by destruct (or_None background).
  - intros c Hc. destruct (Hp c Hc) as [H| ->]; [by left|right].
    apply list_elem_of_here.
Qed.

Lemma blank_preferences_leave_no_line_witness :
  career_form_prompt (lit "Data Scientist") (lit "Beginner") 12 [] (lit " , ,") =
  career_form_prompt (lit "Data Scientist") (lit "Beginner") 12 [] [].
Proof.
  apply blank_preferences_leave_no_line.
  intros c Hc. repeat (apply elem_of_cons in Hc as [-> |Hc]; [by (left + right)|]).
  by apply not_elem_of_nil in Hc.
Defined.

(** X15: the prompt of [get_career_path_prompt] names the target role in
    its opening request, but its closing requirements are not interpolated:
    whatever the arguments, the prompt keeps the placeholder [{target_role}]
    as written. *)
Theorem career_prompt_keeps_placeholder target_role current_level duration_months
    background preferences :
  let prompt := get_career_path_prompt target_role current_level duration_months
                  background preferences in
  contains (lit "real job requirements for {target_role}") prompt = true
  ∧ contains (lit "become a **" ++ target_role ++ lit "**.") prompt = true.
Proof.
  intros prompt. subst prompt. unfold get_career_path_prompt. split.
  - match goal with |- context [join _ (?l ++ [career_structure_requirements])] =>
      destruct (join_last (tpl "|") l career_structure_requirements) as [a ->]
    end.
    apply contains_app_r. vm_compute. reflexivity.
  - set (sub := lit "become a **" ++ target_role ++ lit "**.").
    assert (∀ pre post, contains sub (pre ++ sub ++ post) = true) as Hsub.
    { intros pre post. apply contains_app_r, contains_app_l, contains_refl. }
    set (head := tpl "|Create a comprehensive learning curriculum for someone who wants to ").
    assert (∀ rest,
      tpl "|Create a comprehensive learning curriculum for someone who wants to become a **"
        ++ target_role ++ tpl "**.||Current Level: " ++ rest =
      head ++ sub ++ tpl "||Current Level: " ++ rest) as Hpart.
    { intros rest. unfold sub, head.
      change (tpl "|Create a comprehensive learning curriculum for someone who wants to become a **")
        with (tpl "|Create a comprehensive learning curriculum for someone who wants to "
                ++ lit "become a **").
      change (tpl "**.||Current Level: ") with (lit "**." ++ tpl "||Current Level: ").
      by rewrite <- !app_assoc. }
    destruct background as [[|? ?]|], preferences as [[|? ?]|];
      cbn [app join]; rewrite <- ?app_assoc;
      apply contains_app_r, contains_app_r; rewrite Hpart;
      apply Hsub.
Qed.

(** X16: a completed-courses field that is empty or holds only white space
    and line breaks makes the recommender prompt describe a beginner. *)
Theorem blank_completed_means_beginner completed interests goal prompt :
  blank completed →
  recommender_form_prompt completed interests goal = Some prompt →
  contains (tpl "Completed Courses: None (beginner)|") prompt = true.
Proof.
  intros Hb. unfold recommender_form_prompt.
  destruct (truthy interests); [|done]. intros [= <-].
  rewrite (stripped_fields_blank (tpl "|") completed); [|done| |done].
  2: { intros c Hc. left. unfold blank in Hb. rewrite Forall_forall in Hb. by apply Hb. }
  unfold get_course_recommendation_prompt.
  set (sub := tpl "Completed Courses: None (beginner)|").
  set (head := tpl "|Based on the following information your task is to recommend:||").
  assert (∀ rest,
    tpl "|Based on the following information your task is to recommend:||Completed Courses: "
      ++ lit "None (beginner)" ++ tpl "|Interests: " ++ rest =
    head ++ sub ++ lit "Interests: " ++ rest) as Hpart by done.
  destruct (or_None goal) as [[|? ?]|];
    cbn [app join]; rewrite <- ?app_assoc;
    apply contains_app_r, contains_app_r; rewrite Hpart;
    apply contains_app_r, contains_app_l, contains_refl.
Qed.

Lemma blank_completed_means_beginner_witness :
  ∃ prompt,
    recommender_form_prompt (tpl "  | |") (lit "Machine Learning, Web") [] = Some prompt
    ∧ contains (tpl "Completed Courses: None (beginner)|") prompt = true.
Proof.
  eexists. split; [reflexivity|].
  apply (blank_completed_means_beginner (tpl "  | |") (lit "Machine Learning, Web") []);
    [|reflexivity].
  repeat constructor.
Defined.

(** ** The quota probe *)

Lemma slice_head s (n : nat) : slice s 0 (Z.of_nat n) = take n s.
Proof.
  unfold slice, clamp, len.
  replace (0 <? 0) with false by done.
  replace (Z.of_nat n <? 0) with false by (symmetry; apply Z.ltb_ge; lia).
  rewrite (Z.min_l 0) by lia. rewrite Z.sub_0_r.
  change (drop (Z.to_nat 0) s) with s.
  destruct (decide (n ≤ length s)%nat).
  - rewrite Z.min_l by lia. by rewrite Nat2Z.id.
  - rewrite Z.min_r by lia. rewrite Nat2Z.id. by rewrite !take_ge by lia.
Qed.

Lemma slice_tail s (n : nat) :
  (0 < n)%nat → slice s (- Z.of_nat n) (len s) = drop (length s - n) s.
Proof.
  intros Hn. unfold slice, clamp, len.
  replace (- Z.of_nat n <? 0) with true by (symmetry; apply Z.ltb_lt; lia).
  replace (Z.of_nat (length s) <? 0) with false by (symmetry; apply Z.ltb_ge; lia).
  rewrite Z.min_id.
  replace (Z.to_nat (Z.max 0 (- Z.of_nat n + Z.of_nat (length s))))
    with (length s - n)%nat by lia.
  apply take_ge. rewrite length_drop. lia.
Qed.

(** X17: the script exits with status 0 exactly when a key is configured
    (present, not empty, not the placeholder of the template) and the
    probe is answered; without a configured key it sends no request at
    all, and with one it sends exactly one. *)
Theorem check_quota_exit_status environ dotenv_file probe :
  let run := check_quota environ dotenv_file probe in
  let configured :=
    ∃ k, (environ ∪ dotenv_file) !! "GOOGLE_API_KEY" = Some k
         ∧ k ≠ [] ∧ k ≠ placeholder_key in
  (exit_status run = 0 ↔
     configured ∧ is_text (probe probe_model probe_contents) = true)
  ∧ (exit_status run = 0 ∨ exit_status run = 1)
  ∧ (configured → probes run = [(probe_model, probe_contents)])
  ∧ (¬ configured → probes run = [] ∧ exit_status run = 1).
Proof.
  intros run configured. subst run configured. unfold check_quota, exit_status.
  destruct ((environ ∪ dotenv_file) !! "GOOGLE_API_KEY") as [k|] eqn:Hk.
  2: { simpl. split_and!; [split; [done|by intros [(k & [=] & _) _]]|by right
                          |by intros (k & [=] & _)|done]. }
  destruct (bool_decide (k = [])) eqn:E1; [apply bool_decide_eq_true in E1|
                                            apply bool_decide_eq_false in E1].
  { simpl. split_and!; [split; [done|by intros [(k' & [= <-] & ? & _) _]]|by right
                       |by intros (k' & [= <-] & ? & _)|done]. }
  destruct (bool_decide (k = placeholder_key)) eqn:E2;
    [apply bool_decide_eq_true in E2|apply bool_decide_eq_false in E2].
  { simpl. split_and!; [split; [done|by intros [(k' & [= <-] & _ & ?) _]]|by right
                       |by intros (k' & [= <-] & _ & ?)|done]. }
  simpl. assert (∃ k', Some k = Some k' ∧ k' ≠ [] ∧ k' ≠ placeholder_key) as Hc
    by (by exists k).
  destruct (probe probe_model probe_contents); simpl; split_and!;
    try done; try (by left); try (by right); try (by intros []);
    try (split; [done|by intros [_ ?]]).
Qed.

Lemma check_quota_exit_status_witness :
  exit_status (check_quota {["GOOGLE_API_KEY" := lit "AIzaSyD-9tSr"]} ∅
                 (λ _ _, ApiText (lit "OK"))) = 0.
Proof.
  destruct (check_quota_exit_status {["GOOGLE_API_KEY" := lit "AIzaSyD-9tSr"]} ∅
              (λ _ _, ApiText (lit "OK"))) as (H & _).
  apply H. split; [|reflexivity].
  exists (lit "AIzaSyD-9tSr"). split_and!; [vm_compute; reflexivity|done|done].
Defined.

(** X18: the line that shows the loaded key prints its first ten and its
    last four characters, so it hides nothing of a key of at most fourteen
    characters: such a key can be read off the line. *)
Theorem check_quota_key_display environ dotenv_file probe k :
  (environ ∪ dotenv_file) !! "GOOGLE_API_KEY" = Some k →
  k ≠ [] → k ≠ placeholder_key →
  let head := take 10 k in
  let tail := drop (length k - 4) k in
  lines (check_quota environ dotenv_file probe) !! 1%nat = Some (LineKeyLoaded head tail)
  ∧ ((length k ≤ 14)%nat →
     k = head ++ drop (length head + length tail - length k) tail).
Proof.
  intros Hk H1 H2 head tail. split.
  - unfold check_quota. rewrite Hk.
    rewrite (bool_decide_eq_false_2 _ H1), (bool_decide_eq_false_2 _ H2). simpl.
    change 10 with (Z.of_nat 10). change (-4) with (- Z.of_nat 4).
    rewrite slice_head, slice_tail by lia.
    by destruct (probe probe_model probe_contents).
  - intros Hlen. subst head tail.
    rewrite drop_drop, length_take, length_drop.
    destruct (decide (length k ≤ 10)%nat).
    + rewrite take_ge, drop_ge by lia. by rewrite app_nil_r.
    + rewrite <- (take_drop 10 k) at 1. f_equal. f_equal. lia.
Qed.

Lemma check_quota_key_display_witness :
  lines (check_quota {["GOOGLE_API_KEY" := lit "AIzaSyD-9tSr"]} ∅
           (λ _ _, ApiText (lit "OK"))) !! 1%nat =
  Some (LineKeyLoaded (lit "AIzaSyD-9t") (lit "9tSr")).
Proof.
  destruct (check_quota_key_display {["GOOGLE_API_KEY" := lit "AIzaSyD-9tSr"]} ∅
              (λ _ _, ApiText (lit "OK")) (lit "AIzaSyD-9tSr")) as [H _];
    [vm_compute; reflexivity|done|done|exact H].
Defined.

(** X19: the report of [check_quota] and the hint of [generate] put an
    error text in the same class, except where the text tells of an invalid
    key (which only the script knows) or says "not found" without the code
    404 (which only the client looks for). *)
Theorem report_and_hint_differ error_str :
  class_of_report (check_quota_report error_str) ≠ class_of_hint (error_hint error_str) →
  check_quota_report error_str = ReportInvalidKey
  ∨ (contains (lit "404") error_str = false
     ∧ contains (lit "not found") (lower error_str) = true).
Proof.
  unfold check_quota_report, error_hint.
  destruct (contains (lit "429") error_str || contains (lit "RESOURCE_EXHAUSTED") error_str);
    [done|].
  destruct (contains (lit "401") error_str || contains (lit "UNAUTHORIZED") error_str);
    [by left|].
  destruct (contains (lit "404") error_str); [done|]. cbn [orb].
  destruct (contains (lit "not found") (lower error_str)); [by intros _; right|done].
Qed.

Lemma report_and_hint_differ_witness :
  check_quota_report (lit "Model Not Found") = ReportInvalidKey
  ∨ (contains (lit "404") (lit "Model Not Found") = false
     ∧ contains (lit "not found") (lower (lit "Model Not Found")) = true).
Proof.
  apply report_and_hint_differ. vm_compute. discriminate.
Defined.

(** ** What a tab can end in *)

Section Shapes.

Import Json.

(** The loops of the decoder return a dictionary, respectively a list. *)
Lemma object_loop_Dict s rounds : ∀ pairs stop v stop',
  object_loop s rounds pairs stop = Done v stop' → ∃ d, v = Dict d.
Proof.
  induction rounds as [|rounds IH]; intros pairs stop v stop'; [done|].
  rewrite JsonFacts.object_loop_S. cbv zeta.
  repeat case_match; simplify_eq; try done; intros Hres;
    first [by (injection Hres as <- _; eexists)|by eapply IH].
Qed.

Lemma array_loop_List s rounds : ∀ values stop v stop',
  array_loop s rounds values stop = Done v stop' → ∃ l, v = List l.
Proof.
  induction rounds as [|rounds IH]; intros values stop v stop'; [done|].
  rewrite JsonFacts.array_loop_S. cbv zeta.
  repeat case_match; simplify_eq; try done; intros Hres;
    first [by (injection Hres as <- _; eexists)|by eapply IH].
Qed.

(** At an opening brace the scanner returns a dictionary or nothing; at an
    opening bracket, a list or nothing. *)
Lemma scan_open_shape sh rest rounds v stop :
  scan_once (open_char sh :: rest) rounds 0 = Done v stop →
  match sh with
  | Object => ∃ d, v = Dict d
  | Array => ∃ l, v = List l
  end.
Proof.
  destruct rounds as [|rounds]; [done|]. rewrite JsonFacts.scan_once_S.
  destruct sh.
  - change ((open_char Object :: rest) !! 0%nat) with (Some "{"%char).
    change (Ascii.eqb "{" dquote) with false.
    change (Ascii.eqb "{" "{") with true. cbv iota.
    unfold JSONObject.
    destruct (char_is _ _ dquote); [by apply object_loop_Dict|]. cbv zeta.
    destruct (char_is _ _ "}"); [intros [= <- _]; by eexists|].
    destruct (char_is _ _ dquote); [by apply object_loop_Dict|done].
  - change ((open_char Array :: rest) !! 0%nat) with (Some "["%char).
    change (Ascii.eqb "[" dquote) with false.
    change (Ascii.eqb "[" "{") with false.
    change (Ascii.eqb "[" "[") with true. cbv iota.
    unfold JSONArray. cbv zeta.
    destruct (char_is _ _ "]"); [intros [= <- _]; by eexists|].
    by apply array_loop_List.
Qed.

(** So a text that begins with a brace decodes to a dictionary or not at
    all; one that begins with a bracket, to a list or not at all. *)
Lemma json_loads_shape sh rest v :
  json_loads (open_char sh :: rest) = inr v →
  match sh with
  | Object => ∃ d, v = Dict d
  | Array => ∃ l, v = List l
  end.
Proof.
  unfold json_loads, decode.
  assert (ws_end (open_char sh :: rest) 0 = 0%nat) as ->.
  { unfold ws_end. rewrite drop_0. by destruct sh. }
  destruct (scan_once _ _ 0) as [obj stop| | |] eqn:E; try done.
  cbv zeta. case_bool_decide; [|done]. intros [= <-].
  by eapply scan_open_shape.
Qed.

End Shapes.
(** X20: when both delimiters of the expected shape occur in the unfenced
    reply, a successful extraction has that shape: an object for the
    career-path tab, an array for the recommender tab. *)
Theorem extraction_has_expected_shape sh response unfenced v :
  unfence response = inr unfenced →
  contains (opening sh) unfenced = true →
  contains (closing sh) unfenced = true →
  extract sh response = Parsed v →
  match sh with
  | Object => ∃ d, v = Json.Dict d
  | Array => ∃ l, v = Json.List l
  end.
Proof.
  intros Hu Ho Hc. rewrite (extract_isolate sh response _ (isolate_unfence sh _ _ Hu)).
  destruct (index_of (opening sh) unfenced) as [i|] eqn:Hi;
    [|apply contains_false in Hi; congruence].
  destruct (rindex_of_is_Some _ _ Hc) as [j Hj].
  rewrite opening_char in Hi. rewrite closing_char in Hj.
  destruct (Nat.lt_trichotomy i j) as [Hlt|[->|Hgt]].
  - destruct (delimiters_decompose _ _ _ _ _ Hi Hj Hlt) as (a & mid & b & -> & Ha & Hb).
    rewrite (between_delimiters_span sh a mid b Ha Hb).
    destruct (json_loads (open_char sh :: mid ++ [close_char sh])) as [e|v'] eqn:E; [done|].
    intros [= <-]. by apply (json_loads_shape sh _ _ E).
  - apply index_of_sound in Hi as [Hi%occurs_at_char _].
    apply rindex_of_sound in Hj as [Hj%occurs_at_char _].
    rewrite Hi in Hj. by destruct sh.
  - assert (between_delimiters sh unfenced = []) as ->; [|done].
    unfold between_delimiters, find, rfind.
    rewrite Ho, Hc, opening_char, closing_char, Hi, Hj. simpl.
    replace (Z.of_nat j + 1) with (Z.of_nat (S j)) by lia.
    apply slice_empty; [lia|]. apply index_of_bound in Hi. lia.
Qed.

Lemma extraction_has_expected_shape_witness :
  ∃ d, Json.Dict [(Json.ulit "title", Json.Str (Json.ulit "X"));
                  (Json.ulit "total_credits", Json.Int 12)] = Json.Dict d.
Proof.
  apply (extraction_has_expected_shape Object fence_free_reply
           (reply_text "Here is the plan: {'title':'X','total_credits':12} Good luck!"));
    vm_compute; reflexivity.
Defined.

